(** * Tag-based cache invalidation: [serverHandler/api/purgeTags.ts]

    A shallow embedding of the purge-tags endpoint of nuxt-multi-cache: the
    request parsing ([getTagsToPurge]), the [DebouncedInvalidator] class
    ([add], [invalidate]), the timer queue of the JavaScript event loop
    that [setTimeout] feeds, and the request handler built on top of them.

    Cache backends are the [Storage] objects of the multi-cache context.
    They are consumed through [getKeys], [getItem] and [removeItem] only;
    each of these returns a promise that may reject.

    Time is discrete (milliseconds) and timers fire exactly when they are
    due.  A call of [invalidate] is one step: its synchronous part (the
    drain of the buffer and the reset of the handle) is one step in the
    code as well, and the sweep that follows does not touch the
    invalidator any more; requests arriving while a sweep is waiting for
    a backend are not interleaved with it.  A request touches the
    invalidator in two steps, before and after its
    [await getModuleConfig()]; other requests and expiries can come in
    between. *)

From stdpp Require Import gmap strings list fin_maps.

Open Scope string_scope.
Open Scope Z_scope.
Open Scope list_scope.

(** ** Values *)

(** The parsed request body ([readBody] returns [any]).  The handler
    declares the accepted array as [string[]], which is the element type
    used here. *)
Inductive Body :=
| BUndefined
| BNull
| BBoolean (b : bool)
| BNumber (n : Z)
| BString (s : string)
| BArray (elems : list string)
| BObject.

(** A stored cache item as [getItem] hands it back.  Only objects are
    inspected by the sweep; for those, what matters is whether the
    property [cacheTags] is present, and its value (cast to [string[]] by
    the code). *)
Inductive Item :=
| Primitive (raw : string)
| Object (cacheTags : option (list string)).

(** [createError({ statusCode, statusMessage })] *)
Record HttpError := createError { statusCode : Z; statusMessage : string }.

(** ** Cache backends *)

(** One backend operation, as it shows up in a sweep's trace. *)
Inductive Op :=
| GetKeys (cache : string)
| GetItem (cache key : string)
| RemoveItem (cache key : string).

(** A backend: its stored items, and which of its operations reject.  A
    rejecting operation leaves the items alone. *)
Record Storage := mkStorage {
  items : gmap string Item;
  getKeysRejects : bool;
  getItemRejects : gset string;
  removeItemRejects : gset string
}.

(** The settled state of an awaited promise. *)
Inductive Settled (A : Type) :=
| Fulfilled (a : A)
| Rejected (failed : Op).
Arguments Fulfilled {A} a.
Arguments Rejected {A} failed.

(** Code that talks to one backend: it threads the backend's state,
    appends to the trace of operations, and stops at the first rejected
    [await]. *)
Definition Async (A : Type) : Type := Storage -> Storage * list Op * Settled A.

#[global] Instance async_ret : MRet Async :=
  fun A (a : A) st => (st, [], Fulfilled a).

#[global] Instance async_bind : MBind Async :=
  fun A B (k : A -> Async B) (m : Async A) st =>
    match m st with
    | (st1, ops1, Fulfilled a) =>
        let '(st2, ops2, r) := k a st1 in (st2, ops1 ++ ops2, r)
    | (st1, ops1, Rejected e) => (st1, ops1, Rejected e)
    end.

(** [await cache.getKeys()] *)
Definition getKeys (cache : string) : Async (list string) :=
  fun st =>
    if getKeysRejects st then (st, [GetKeys cache], Rejected (GetKeys cache))
    else (st, [GetKeys cache], Fulfilled (map_to_list (items st)).*1).

(** [await cache.getItem(cacheKey)]; [None] is JavaScript's [null]. *)
Definition getItem (cache key : string) : Async (option Item) :=
  fun st =>
    if bool_decide (key ∈ getItemRejects st)
    then (st, [GetItem cache key], Rejected (GetItem cache key))
    else (st, [GetItem cache key], Fulfilled (items st !! key)).

(** [await cache.removeItem(cacheKey)] *)
Definition removeItem (cache key : string) : Async unit :=
  fun st =>
    if bool_decide (key ∈ removeItemRejects st)
    then (st, [RemoveItem cache key], Rejected (RemoveItem cache key))
    else (mkStorage (delete key (items st)) (getKeysRejects st)
            (getItemRejects st) (removeItemRejects st),
          [RemoveItem cache key], Fulfilled tt).

(** ** Array helpers *)

(** [self.includes(value)] *)
Definition includes (self : list string) (value : string) : bool :=
  bool_decide (value ∈ self).

(** [self.indexOf(value)], with [-1] for an absent value. *)
Fixpoint indexOf (self : list string) (value : string) : Z :=
  match self with
  | [] => -1
  | x :: rest =>
      if bool_decide (x = value) then 0
      else let i := indexOf rest value in if i <? 0 then -1 else i + 1
  end.

(** [onlyUnique(value, index, self)] *)
Definition onlyUnique (value : string) (index : Z) (self : list string) : bool :=
  indexOf self value =? index.

(** [arr.filter(f)] for a callback that takes the value, its index and the
    whole array. *)
Fixpoint filter_from (f : string -> Z -> list string -> bool)
    (self : list string) (index : Z) (rest : list string) : list string :=
  match rest with
  | [] => []
  | x :: rest' =>
      if f x index self then x :: filter_from f self (index + 1) rest'
      else filter_from f self (index + 1) rest'
  end.

Definition array_filter (f : string -> Z -> list string -> bool)
    (self : list string) : list string :=
  filter_from f self 0 self.

(** [arr.some(f)] *)
Definition some (f : string -> bool) (arr : list string) : bool := existsb f arr.

(** ** The sweep *)

(** The test guarding the removal of one item:
    [item && typeof item === 'object' && 'cacheTags' in item], then
    [itemCacheTags.some((v) => tags.includes(v))]. *)
Definition shouldPurge (tags : list string) (item : option Item) : bool :=
  match item with
  | Some (Object (Some itemCacheTags)) => some (fun v => includes tags v) itemCacheTags
  | _ => false
  end.

(** The body of [for (const cacheKey of cacheItemKeys)]. *)
Definition sweepKey (tags : list string) (cache cacheKey : string) : Async unit :=
  item ← getItem cache cacheKey;
  if shouldPurge tags item then removeItem cache cacheKey else mret tt.

Fixpoint sweepKeys (tags : list string) (cache : string)
    (cacheItemKeys : list string) : Async unit :=
  match cacheItemKeys with
  | [] => mret tt
  | cacheKey :: rest =>
      sweepKey tags cache cacheKey;; sweepKeys tags cache rest
  end.

(** What is done with one enabled cache. *)
Definition sweepCache (tags : list string) (cache : string) : Async unit :=
  cacheItemKeys ← getKeys cache;
  sweepKeys tags cache cacheItemKeys.

(** The multi-cache context: an object whose properties (in [for ... in]
    order) hold a backend each, or [undefined] for a cache that is not
    enabled. *)
Definition CacheContext : Type := list (string * option Storage).

(** [for (key in this.cacheContext)]: the loop stops where an [await]
    rejects, and the caches after that one are not visited. *)
Fixpoint sweepContext (tags : list string) (ctx : CacheContext)
    : CacheContext * list Op * Settled unit :=
  match ctx with
  | [] => ([], [], Fulfilled tt)
  | (key, None) :: rest =>
      let '(rest', ops, r) := sweepContext tags rest in
      ((key, None) :: rest', ops, r)
  | (key, Some cache) :: rest =>
      match sweepCache tags key cache with
      | (cache', ops1, Fulfilled _) =>
          let '(rest', ops2, r) := sweepContext tags rest in
          ((key, Some cache') :: rest', ops1 ++ ops2, r)
      | (cache', ops1, Rejected e) =>
          ((key, Some cache') :: rest, ops1, Rejected e)
      end
  end.

(** ** The debounced invalidator *)

(** The fields of [class DebouncedInvalidator].  [timeout] holds the
    handle returned by [setTimeout], or [None] for [null]; a handle is a
    [Timeout] object and therefore truthy. *)
Record DebouncedInvalidator := mkInvalidator {
  tags : list string;
  delay : option Z;
  timeout : option nat;
  cacheContext : option CacheContext
}.

(** [constructor()] *)
Definition constructor : DebouncedInvalidator :=
  {| tags := []; delay := None; timeout := None; cacheContext := None |}.

(** One armed timer of the event loop.  Every timer of this module runs
    the same callback, [() => { this.invalidate() }]. *)
Record Timer := mkTimer { handle : nat; due : Z }.

(** One call of [invalidate] by an expired timer: when it ran, the tags it
    drained ([None] when it returned before draining), the backend
    operations it performed and how its promise settled.  The callback
    drops that promise. *)
Record Run := mkRun {
  firedAt : Z;
  drained : option (list string);
  trace : list Op;
  settled : Settled unit
}.

(** The process: the module-level [invalidator], the timers that are
    armed (earliest first), the clock in milliseconds, the next timer
    handle, and the history of [invalidate] calls. *)
Record World := mkWorld {
  invalidator : DebouncedInvalidator;
  timers : list Timer;
  now : Z;
  nextHandle : nat;
  runs : list Run
}.

Definition boot : World :=
  {| invalidator := constructor; timers := []; now := 0; nextHandle := 1; runs := [] |}.

(** The delay [setTimeout] uses for its second argument: one millisecond
    for [undefined] and for anything outside [1 .. 2^31 - 1]. *)
Definition TIMEOUT_MAX : Z := 2147483647.

Definition timerDelay (ms : option Z) : Z :=
  match ms with
  | Some d => if (1 <=? d) && (d <=? TIMEOUT_MAX) then d else 1
  | None => 1
  end.

(** Timers are kept in the order in which they expire; among timers that
    expire together the one armed first runs first. *)
Fixpoint enqueue (t : Timer) (queue : list Timer) : list Timer :=
  match queue with
  | [] => [t]
  | u :: rest => if due u <=? due t then u :: enqueue t rest else t :: u :: rest
  end.

(** The callback of [tags.forEach]. *)
Definition pushTag (buffer : list string) (tag : string) : list string :=
  if negb (includes buffer tag) then buffer ++ [tag] else buffer.

(** [add(tags)] on the module's invalidator. *)
Definition add (newTags : list string) (w : World) : World :=
  let this := invalidator w in
  let buffer := foldl pushTag (tags this) newTags in
  match timeout this with
  | None =>
      let h := nextHandle w in
      {| invalidator :=
           {| tags := buffer; delay := delay this; timeout := Some h;
              cacheContext := cacheContext this |};
         timers :=
           enqueue {| handle := h; due := now w + timerDelay (delay this) |} (timers w);
         now := now w;
         nextHandle := S h;
         runs := runs w |}
  | Some h =>
      {| invalidator :=
           {| tags := buffer; delay := delay this; timeout := Some h;
              cacheContext := cacheContext this |};
         timers := timers w;
         now := now w;
         nextHandle := nextHandle w;
         runs := runs w |}
  end.

(** [invalidate()]: the invalidator afterwards, the drained tags, the
    trace of the sweep and the state of the returned promise. *)
Definition invalidate (this : DebouncedInvalidator)
    : DebouncedInvalidator * (option (list string) * list Op * Settled unit) :=
  match cacheContext this with
  | None => (this, (None, [], Fulfilled tt))
  | Some ctx =>
      let tags := array_filter onlyUnique (tags this) in
      let '(ctx', ops, r) := sweepContext tags ctx in
      ({| tags := []; delay := delay this; timeout := None;
          cacheContext := Some ctx' |},
       (Some tags, ops, r))
  end.

(** An expired timer runs its callback; the clock has reached the timer's
    due time by then. *)
Definition fire (t : Timer) (w : World) : World :=
  let '(this, (swept, ops, r)) := invalidate (invalidator w) in
  let at_ := Z.max (now w) (due t) in
  {| invalidator := this;
     timers := timers w;
     now := at_;
     nextHandle := nextHandle w;
     runs := runs w ++ [{| firedAt := at_; drained := swept; trace := ops; settled := r |}] |}.

Definition setTimers (queue : list Timer) (w : World) : World :=
  {| invalidator := invalidator w; timers := queue; now := now w;
     nextHandle := nextHandle w; runs := runs w |}.

Definition setNow (t : Z) (w : World) : World :=
  {| invalidator := invalidator w; timers := timers w; now := t;
     nextHandle := nextHandle w; runs := runs w |}.

(** Run the timers of [queue] that are due by [deadline], earliest first;
    the callback arms no timer, so the rest of the queue stays as it is. *)
Fixpoint runTimers (deadline : Z) (queue : list Timer) (w : World) : World :=
  match queue with
  | [] => setTimers [] w
  | t :: rest =>
      if due t <=? deadline then runTimers deadline rest (fire t w)
      else setTimers (t :: rest) w
  end.

(** [ms] milliseconds pass. *)
Definition elapse (ms : N) (w : World) : World :=
  let deadline := now w + Z.of_N ms in
  setNow deadline (runTimers deadline (timers w) w).

(** ** The request handler *)

(** What the handler reads from a request: the verdict of [checkAuth]
    (the error it throws, if any), the router parameters and the parsed
    body, and what [getMultiCacheContext] finds on the event. *)
Record H3Event := mkEvent {
  authFailure : option HttpError;
  params : list (string * string);
  body : Body;
  multiCacheContext : option CacheContext
}.

(** The module options and the constant of [settings] that the handler
    reads. *)
Record Settings := mkSettings {
  cacheTagInvalidationDelay : option Z;
  DEFAULT_CACHE_TAG_INVALIDATION_DELAY : Z
}.

Record Response := mkResponse { status : string; purged : list string }.

(** [getTagsToPurge(event)] *)
Definition getTagsToPurge (event : H3Event) : HttpError + list string :=
  match body event with
  | BArray elems => inr elems
  | _ => inl {| statusCode := 400; statusMessage := "No valid tags provided." |}
  end.

(** [a || b] on an optional number: [undefined] and [0] are falsy. *)
Definition orElse (a : option Z) (b : Z) : Z :=
  match a with
  | Some n => if n =? 0 then b else n
  | None => b
  end.

(** Both assignments of the lazy initialisation taken together: what
    they amount to when nothing else runs during the [await] that lies
    between them. *)
Definition establish (cfg : Settings) (event : H3Event) (w : World) : World :=
  match cacheContext (invalidator w) with
  | Some _ => w
  | None =>
      {| invalidator :=
           {| tags := tags (invalidator w);
              delay := Some (orElse (cacheTagInvalidationDelay cfg)
                               (DEFAULT_CACHE_TAG_INVALIDATION_DELAY cfg));
              timeout := timeout (invalidator w);
              cacheContext := multiCacheContext event |};
         timers := timers w; now := now w; nextHandle := nextHandle w;
         runs := runs w |}
  end.

(** [invalidator.cacheContext = ...] *)
Definition setContext (ctx : option CacheContext) (w : World) : World :=
  {| invalidator :=
       {| tags := tags (invalidator w); delay := delay (invalidator w);
          timeout := timeout (invalidator w); cacheContext := ctx |};
     timers := timers w; now := now w; nextHandle := nextHandle w; runs := runs w |}.

(** [invalidator.delay = delay] *)
Definition setDelay (d : Z) (w : World) : World :=
  {| invalidator :=
       {| tags := tags (invalidator w); delay := Some d;
          timeout := timeout (invalidator w);
          cacheContext := cacheContext (invalidator w) |};
     timers := timers w; now := now w; nextHandle := nextHandle w; runs := runs w |}.

(** Where a request stands when it has gone as far as it can without the
    module config: it is answered, or it is suspended at
    [await getModuleConfig()], holding its tags. *)
Inductive Progress :=
| Answered (answer : HttpError + Response)
| AwaitingConfig (tags : list string).

(** The handler from the first access to the invalidator up to
    [await getModuleConfig()]: the context is assigned before that
    [await], the delay only after it. *)
Definition beginRequest (event : H3Event) (w : World) : World * Progress :=
  match authFailure event with
  | Some e => (w, Answered (inl e))
  | None =>
      match getTagsToPurge event with
      | inl e => (w, Answered (inl e))
      | inr tags =>
          match cacheContext (invalidator w) with
          | Some _ =>
              (add tags w, Answered (inr {| status := "OK"; purged := tags |}))
          | None => (setContext (multiCacheContext event) w, AwaitingConfig tags)
          end
      end
  end.

(** The handler from the point where [getModuleConfig()] has settled: a
    rejection is passed on and nothing more is done; otherwise the delay
    is assigned and the tags are added. *)
Definition resumeRequest (config : HttpError + Settings) (tags : list string)
    (w : World) : World * (HttpError + Response) :=
  match config with
  | inl e => (w, inl e)
  | inr cfg =>
      (add tags (setDelay (orElse (cacheTagInvalidationDelay cfg)
                             (DEFAULT_CACHE_TAG_INVALIDATION_DELAY cfg)) w),
       inr {| status := "OK"; purged := tags |})
  end.

(** A request during whose [await]s nothing else runs. *)
Definition handleRequest (config : HttpError + Settings) (event : H3Event) (w : World)
    : World * (HttpError + Response) :=
  match beginRequest event w with
  | (w', Answered answer) => (w', answer)
  | (w', AwaitingConfig tags) => resumeRequest config tags w'
  end.

(** The default export, [defineEventHandler(async (event) => ...)], for a
    request that is not interleaved with anything and whose
    [getModuleConfig()] yields [cfg]. *)
Definition handler (cfg : Settings) (event : H3Event) (w : World)
    : World * (HttpError + Response) :=
  handleRequest (inr cfg) event w.

(** A request goes as far as [await getModuleConfig()] and stays there;
    where it would not get there, nothing happens. *)
Definition suspend (event : H3Event) (w : World) : World :=
  match beginRequest event w with
  | (w', AwaitingConfig _) => w'
  | (_, Answered _) => w
  end.

(** ** Executions *)

(** What can happen, one after the other: a request that nothing
    interrupts; a request that goes as far as [await getModuleConfig()]
    (one whose [getModuleConfig()] rejects goes no further); the rest of
    such a request once the module config is there; a direct call of
    [add]; time passing.  The executions of the code are the lists in
    which every [EvResume] carries the tags of an earlier [EvSuspend];
    the properties below are proved for all lists. *)
Inductive Event :=
| EvRequest (event : H3Event)
| EvSuspend (event : H3Event)
| EvResume (tags : list string)
| EvAdd (newTags : list string)
| EvElapse (ms : N).

Definition step (cfg : Settings) (w : World) (e : Event) : World :=
  match e with
  | EvRequest event => fst (handler cfg event w)
  | EvSuspend event => suspend event w
  | EvResume tags => fst (resumeRequest (inr cfg) tags w)
  | EvAdd newTags => add newTags w
  | EvElapse ms => elapse ms w
  end.

Definition run (cfg : Settings) (events : list Event) (w : World) : World :=
  foldl (step cfg) w events.

(** * Specification vocabulary *)

(** The item read under a key carries [cacheTags], and one of its tags is
    among [tags]. *)
Definition intersects (tags : list string) (item : option Item) : Prop :=
  exists itemCacheTags t,
    item = Some (Object (Some itemCacheTags)) /\ t ∈ itemCacheTags /\ t ∈ tags.

(** What a sweep for [tags] is to do to a backend: an item goes if and
    only if its tags meet [tags]. *)
Definition evicted (tags : list string) (before after : Storage) : Prop :=
  forall k,
    (intersects tags (items before !! k) -> items after !! k = None) /\
    (~ intersects tags (items before !! k) -> items after !! k = items before !! k).

(** What holds of a backend after any sweep for [tags], completed or not:
    whatever is gone carried one of the tags, and the rest is as it was. *)
Definition evictedWithin (tags : list string) (before after : Storage) : Prop :=
  forall k,
    items after !! k = items before !! k \/
    (items after !! k = None /\ intersects tags (items before !! k)).

(** No operation of the backend rejects. *)
Definition reliable (st : Storage) : Prop :=
  getKeysRejects st = false /\ getItemRejects st = ∅ /\ removeItemRejects st = ∅.

(** The two states reject the same operations. *)
Definition sameFaults (st st' : Storage) : Prop :=
  getKeysRejects st' = getKeysRejects st /\
  getItemRejects st' = getItemRejects st /\
  removeItemRejects st' = removeItemRejects st.

(** The operation is a [removeItem]. *)
Definition isRemoveItem (op : Op) : bool :=
  match op with RemoveItem _ _ => true | _ => false end.

(** Two contexts entry by entry: the same names, the same caches enabled,
    and [R] between the backends. *)
Definition onEntries (R : Storage -> Storage -> Prop)
    (before after : string * option Storage) : Prop :=
  before.1 = after.1 /\
  match before.2, after.2 with
  | Some st, Some st' => R st st'
  | None, None => True
  | _, _ => False
  end.

(** Every enabled cache of the context is reliable. *)
Definition reliableContext (ctx : CacheContext) : Prop :=
  Forall (fun entry => match entry.2 with Some st => reliable st | None => True end) ctx.

(** The operation at which the visit of key [k] rejects in state [st], if
    it does. *)
Definition rejectsAt (tags : list string) (c k : string) (st : Storage) : option Op :=
  if bool_decide (k ∈ getItemRejects st) then Some (GetItem c k)
  else if shouldPurge tags (items st !! k) && bool_decide (k ∈ removeItemRejects st)
  then Some (RemoveItem c k)
  else None.

(** The operations of the visit of key [k] up to and including [e]. *)
Definition opsUpTo (c k : string) (e : Op) : list Op :=
  if isRemoveItem e then [GetItem c k; RemoveItem c k] else [GetItem c k].

(** The scheduler's invariant: at most one timer is armed, the invalidator
    holds its handle, and it is not yet due. *)
Definition wellArmed (w : World) : Prop :=
  match timers w with
  | [] => True
  | [t] => timeout (invalidator w) = Some (handle t) /\ now w < due t
  | _ => False
  end.

(** The sweeps so far: the tag lists that were drained and handed to the
    sweep, oldest first. *)
Definition sweeps (w : World) : list (list string) := omap drained (runs w).

(** The tags an event hands to [add]. *)
Definition accepted (e : Event) : list string :=
  match e with
  | EvRequest event =>
      match authFailure event, getTagsToPurge event with
      | None, inr tags => tags
      | _, _ => []
      end
  | EvSuspend _ => []
  | EvResume tags => tags
  | EvAdd newTags => newTags
  | EvElapse _ => []
  end.

(** All tags handed to [add] by a list of events, in order. *)
Definition added (events : list Event) : list string := flat_map accepted events.


(** The handle is set but no timer is armed. *)
Definition stuck (w : World) : Prop :=
  timers w = [] /\ timeout (invalidator w) <> None.

(** ** Sample data *)

(** A debounce delay of two seconds, configured; the default is a minute. *)
Definition settings : Settings :=
  {| cacheTagInvalidationDelay := Some 2000;
     DEFAULT_CACHE_TAG_INVALIDATION_DELAY := 60000 |}.

(** A backend with the items [k1] (tags [t1], [t2]) and [k2] (tag [t3]). *)
Definition dataStore : Storage :=
  {| items := <["k1" := Object (Some ["t1"; "t2"])]>
                (<["k2" := Object (Some ["t3"])]> ∅);
     getKeysRejects := false; getItemRejects := ∅; removeItemRejects := ∅ |}.

Definition dataContext : CacheContext :=
  [("component", None); ("data", Some dataStore)].

(** An authorised request with an array of tags as its body. *)
Definition purgeRequest (tagList : list string) (ctx : option CacheContext) : H3Event :=
  {| authFailure := None; params := []; body := BArray tagList;
     multiCacheContext := ctx |}.

(** Three backends whose items all carry the tag [t1]; in the second one,
    reading [k1] rejects. *)
Definition componentStore : Storage :=
  {| items := <["k0" := Object (Some ["t1"])]> ∅;
     getKeysRejects := false; getItemRejects := ∅; removeItemRejects := ∅ |}.

Definition flakyStore : Storage :=
  {| items := <["k1" := Object (Some ["t1"])]>
                (<["k2" := Object (Some ["t1"])]>
                   (<["k3" := Object (Some ["t1"])]> ∅));
     getKeysRejects := false; getItemRejects := {["k1"]}; removeItemRejects := ∅ |}.

Definition routeStore : Storage :=
  {| items := <["k4" := Object (Some ["t1"])]> ∅;
     getKeysRejects := false; getItemRejects := ∅; removeItemRejects := ∅ |}.

Definition flakyContext : CacheContext :=
  [("component", Some componentStore); ("data", Some flakyStore);
   ("route", Some routeStore)].

Definition flakyInvalidator : DebouncedInvalidator :=
  {| tags := ["t1"]; delay := Some 2000; timeout := Some 1%nat;
     cacheContext := Some flakyContext |}.


(** ** Further vocabulary *)

(** A backend that only lost items: what it holds is part of what it
    held, and it rejects the same operations. *)
Definition shrunk (before after : Storage) : Prop :=
  items after ⊆ items before /\ sameFaults before after.

(** The operation is a [getItem]. *)
Definition isGetItem (op : Op) : bool :=
  match op with GetItem _ _ => true | _ => false end.

(** How many operations of a trace satisfy [p]. *)
Definition countOps (p : Op -> bool) (ops : list Op) : nat :=
  length (List.filter p ops).

(** The operations of the visit of key [k] of cache [c] when nothing
    rejects: the read, and the removal if the item is to be purged. *)
Definition visit (tags : list string) (c : string) (st : Storage) (k : string) : list Op :=
  if shouldPurge tags (items st !! k) then [GetItem c k; RemoveItem c k]
  else [GetItem c k].

(** The number of items in the enabled backends of a context. *)
Definition totalItems (ctx : CacheContext) : nat :=
  sum_list_with (fun entry : string * option Storage =>
                   match entry.2 with Some st => size (items st) | None => 0%nat end) ctx.

(** The operations of a sweep over one entry of the context when no item
    is to be removed and nothing rejects: the enumeration, then one read
    per key. *)
Definition scanOps (entry : string * option Storage) : list Op :=
  match entry.2 with
  | Some st => GetKeys entry.1 :: (GetItem entry.1 <$> (map_to_list (items st)).*1)
  | None => []
  end.

(** The tag [x] is pending, or it was handed to a sweep. *)
Definition held (w : World) (x : string) : Prop :=
  x ∈ tags (invalidator w) \/ exists d, d ∈ sweeps w /\ x ∈ d.

(** An event of an execution in which [add] is reached only through
    requests that nothing interrupts, and every request finds the
    multi-cache context. *)
Definition carriesContext (e : Event) : Prop :=
  match e with
  | EvRequest event => multiCacheContext event <> None
  | EvSuspend _ => False
  | EvResume _ => False
  | EvAdd _ => False
  | EvElapse _ => True
  end.

(** The handle is in step with the timer queue, a pending timer will find
    the context, and every expiry so far has swept. *)
Definition healthy (w : World) : Prop :=
  wellArmed w /\
  (timers w = [] -> timeout (invalidator w) = None) /\
  (timers w <> [] -> cacheContext (invalidator w) <> None) /\
  Forall (fun r => is_Some (drained r)) (runs w).

(** Whether the event reaches [add]. *)
Definition callsAdd (e : Event) : bool :=
  match e with
  | EvRequest event =>
      match authFailure event, getTagsToPurge event with
      | None, inr _ => true
      | _, _ => false
      end
  | EvSuspend _ => false
  | EvResume _ => true
  | EvAdd _ => true
  | EvElapse _ => false
  end.

(** A backend whose key enumeration rejects. *)
Definition brokenStore : Storage :=
  {| items := <["k5" := Object (Some ["t1"])]> ∅;
     getKeysRejects := true; getItemRejects := ∅; removeItemRejects := ∅ |}.

Definition brokenContext : CacheContext :=
  [("component", Some componentStore); ("data", Some brokenStore);
   ("route", Some routeStore)].

(** Module options with the delay set to zero. *)
Definition zeroDelaySettings : Settings :=
  {| cacheTagInvalidationDelay := Some 0;
     DEFAULT_CACHE_TAG_INVALIDATION_DELAY := 60000 |}.
(** * Properties *)

(** ** Arrays *)

Section Arrays.
Implicit Types (self pre rest buffer : list string) (value tag x : string).

Lemma includes_true self value : includes self value = true <-> value ∈ self.
Proof. unfold includes. apply bool_decide_eq_true. Qed.

Lemma includes_false self value : includes self value = false <-> value ∉ self.
Proof. unfold includes. apply bool_decide_eq_false. Qed.

Lemma indexOf_absent self value : value ∉ self -> indexOf self value = -1.
Proof.
  induction self as [|x self IH]; intros Hnot; [done|].
  apply not_elem_of_cons in Hnot as [Hne Hnot]. simpl.
  rewrite bool_decide_eq_false_2 by congruence.
  rewrite (IH Hnot). done.
Qed.

Lemma indexOf_present self value :
  value ∈ self -> 0 <= indexOf self value < Z.of_nat (length self).
Proof.
  induction self as [|x self IH]; intros Hin; [by apply elem_of_nil in Hin|].
  simpl. case_bool_decide as Hx; [lia|].
  apply elem_of_cons in Hin as [->|Hin]; [done|].
  specialize (IH Hin). destruct (Z.ltb_spec (indexOf self value) 0); lia.
Qed.

Lemma indexOf_app_l pre rest value :
  value ∈ pre -> indexOf (pre ++ rest) value = indexOf pre value.
Proof.
  induction pre as [|x pre IH]; intros Hin; [by apply elem_of_nil in Hin|].
  simpl. case_bool_decide as Hx; [done|].
  apply elem_of_cons in Hin as [->|Hin]; [done|]. by rewrite IH.
Qed.

Lemma indexOf_first pre rest value :
  value ∉ pre -> indexOf (pre ++ value :: rest) value = Z.of_nat (length pre).
Proof.
  induction pre as [|x pre IH]; intros Hnot; simpl.
  - by rewrite bool_decide_eq_true_2.
  - apply not_elem_of_cons in Hnot as [Hne Hnot].
    rewrite bool_decide_eq_false_2 by congruence.
    rewrite (IH Hnot). destruct (Z.ltb_spec (Z.of_nat (length pre)) 0); lia.
Qed.

(** [onlyUnique] keeps an element exactly at its first occurrence. *)
Lemma onlyUnique_first pre rest value :
  onlyUnique value (Z.of_nat (length pre)) (pre ++ value :: rest) = true
  <-> value ∉ pre.
Proof.
  unfold onlyUnique. rewrite Z.eqb_eq. split.
  - intros Heq Hin.
    pose proof (indexOf_present pre value Hin) as Hlt.
    rewrite (indexOf_app_l _ _ _ Hin) in Heq. lia.
  - apply indexOf_first.
Qed.

Lemma filter_onlyUnique_elem pre rest x :
  x ∈ filter_from onlyUnique (pre ++ rest) (Z.of_nat (length pre)) rest
  <-> x ∈ rest /\ x ∉ pre.
Proof.
  revert pre. induction rest as [|y rest IH]; intros pre; simpl.
  - split; [by intros ?%elem_of_nil | by intros [?%elem_of_nil _]].
  - assert (Hstep :
        x ∈ filter_from onlyUnique (pre ++ y :: rest)
              (Z.of_nat (length pre) + 1) rest
        <-> x ∈ rest /\ x ∉ pre ++ [y]).
    { specialize (IH (pre ++ [y])).
      rewrite <- app_assoc, length_app in IH. simpl in IH.
      replace (Z.of_nat (length pre + 1)) with (Z.of_nat (length pre) + 1) in IH by lia.
      apply IH. }
    destruct (onlyUnique y (Z.of_nat (length pre)) (pre ++ y :: rest)) eqn:Hy.
    + apply onlyUnique_first in Hy.
      rewrite elem_of_cons, Hstep, elem_of_cons, not_elem_of_app, list_elem_of_singleton.
      split.
      * intros [->|(?&?&?)]; auto.
      * intros [[->|Hin] Hnot]; [by left|].
        destruct (decide (x = y)) as [->|Hne]; [by left|]. right; auto.
    + assert (y ∈ pre) as Hpre.
      { destruct (decide (y ∈ pre)) as [|Hn]; [done|].
        apply onlyUnique_first with (rest := rest) in Hn. congruence. }
      rewrite Hstep, elem_of_cons, not_elem_of_app, list_elem_of_singleton.
      split.
      * intros (?&?&?); auto.
      * intros [[->|Hin] Hnot]; [done|].
        repeat split; auto. intros ->. done.
Qed.

Lemma filter_onlyUnique_NoDup pre rest :
  NoDup (filter_from onlyUnique (pre ++ rest) (Z.of_nat (length pre)) rest).
Proof.
  revert pre. induction rest as [|y rest IH]; intros pre; simpl; [constructor|].
  pose proof (IH (pre ++ [y])) as IHy.
  pose proof (filter_onlyUnique_elem (pre ++ [y]) rest y) as Hy.
  rewrite <- app_assoc, length_app in IHy, Hy. simpl in IHy, Hy.
  replace (Z.of_nat (length pre + 1)) with (Z.of_nat (length pre) + 1) in IHy, Hy by lia.
  destruct (onlyUnique y (Z.of_nat (length pre)) (pre ++ y :: rest)); [|done].
  constructor; [|done].
  rewrite Hy, not_elem_of_app, list_elem_of_singleton. tauto.
Qed.

(** The drained list has the elements of the buffer, each once. *)
Lemma array_filter_onlyUnique_elem self x :
  x ∈ array_filter onlyUnique self <-> x ∈ self.
Proof.
  unfold array_filter.
  pose proof (filter_onlyUnique_elem [] self x) as H. simpl in H.
  rewrite H. split; [tauto|]. intros ?; split; [done|]. apply not_elem_of_nil.
Qed.

Lemma array_filter_onlyUnique_NoDup self : NoDup (array_filter onlyUnique self).
Proof. apply (filter_onlyUnique_NoDup [] self). Qed.

Lemma pushTag_elem buffer tag x :
  x ∈ pushTag buffer tag <-> x ∈ buffer \/ x = tag.
Proof.
  unfold pushTag. destruct (includes buffer tag) eqn:Hin; simpl.
  - apply includes_true in Hin. split; [by left|]. by intros [?| ->].
  - by rewrite elem_of_app, list_elem_of_singleton.
Qed.

Lemma pushTag_NoDup buffer tag : NoDup buffer -> NoDup (pushTag buffer tag).
Proof.
  intros Hnd. unfold pushTag. destruct (includes buffer tag) eqn:Hin; simpl; [done|].
  apply includes_false in Hin. apply NoDup_app. repeat split; [done| |apply NoDup_singleton].
  intros y Hy ->%list_elem_of_singleton. done.
Qed.

Lemma forEach_pushTag_elem newTags buffer x :
  x ∈ foldl pushTag buffer newTags <-> x ∈ buffer \/ x ∈ newTags.
Proof.
  revert buffer. induction newTags as [|tag newTags IH]; intros buffer; simpl.
  - split; [by left|]. intros [?|?%elem_of_nil]; done.
  - rewrite IH, pushTag_elem, elem_of_cons. tauto.
Qed.

Lemma forEach_pushTag_NoDup newTags buffer :
  NoDup buffer -> NoDup (foldl pushTag buffer newTags).
Proof.
  revert buffer. induction newTags as [|tag newTags IH]; intros buffer Hnd; simpl; [done|].
  apply IH, pushTag_NoDup, Hnd.
Qed.

Lemma some_includes_true (tags itemCacheTags : list string) :
  some (fun v => includes tags v) itemCacheTags = true
  <-> exists t, t ∈ itemCacheTags /\ t ∈ tags.
Proof.
  unfold some. rewrite existsb_exists. split.
  - intros (t & Hin & Ht). exists t. split; [by apply list_elem_of_In|].
    by apply includes_true.
  - intros (t & Hin & Ht). exists t. split; [by apply list_elem_of_In|].
    by apply includes_true.
Qed.
End Arrays.

(** ** One backend *)

Lemma shouldPurge_intersects tags item :
  shouldPurge tags item = true <-> intersects tags item.
Proof.
  unfold intersects. destruct item as [[raw|[its|]]|]; simpl.
  - split; [done|]. by intros (?&?&?&?).
  - rewrite some_includes_true. split.
    + intros (t & ? & ?). by exists its, t.
    + intros (its' & t & [= <-] & ? & ?). by exists t.
  - split; [done|]. by intros (?&?&?&?).
  - split; [done|]. by intros (?&?&?&?).
Qed.

Lemma shouldPurge_None tags : shouldPurge tags None = false.
Proof. done. Qed.

(** The four ways one key can go. *)
Lemma sweepKey_unfold tags c k st :
  sweepKey tags c k st =
    if bool_decide (k ∈ getItemRejects st)
    then (st, [GetItem c k], Rejected (GetItem c k))
    else if shouldPurge tags (items st !! k)
    then if bool_decide (k ∈ removeItemRejects st)
         then (st, [GetItem c k; RemoveItem c k], Rejected (RemoveItem c k))
         else (mkStorage (delete k (items st)) (getKeysRejects st)
                 (getItemRejects st) (removeItemRejects st),
               [GetItem c k; RemoveItem c k], Fulfilled tt)
    else (st, [GetItem c k], Fulfilled tt).
Proof.
  unfold sweepKey, mbind, async_bind, getItem.
  destruct (bool_decide (k ∈ getItemRejects st)); [done|].
  destruct (shouldPurge tags (items st !! k)); [|done].
  unfold removeItem. by destruct (bool_decide (k ∈ removeItemRejects st)).
Qed.

Lemma sweepKeys_cons tags c k ks st :
  sweepKeys tags c (k :: ks) st =
    match sweepKey tags c k st with
    | (st1, ops1, Fulfilled _) =>
        let '(st2, ops2, r) := sweepKeys tags c ks st1 in (st2, ops1 ++ ops2, r)
    | (st1, ops1, Rejected e) => (st1, ops1, Rejected e)
    end.
Proof. done. Qed.

Lemma sweepKeys_app tags c ks1 ks2 st :
  sweepKeys tags c (ks1 ++ ks2) st =
    match sweepKeys tags c ks1 st with
    | (st1, ops1, Fulfilled _) =>
        let '(st2, ops2, r) := sweepKeys tags c ks2 st1 in (st2, ops1 ++ ops2, r)
    | (st1, ops1, Rejected e) => (st1, ops1, Rejected e)
    end.
Proof.
  revert st. induction ks1 as [|k ks1 IH]; intros st.
  - simpl. unfold mret, async_ret.
    by destruct (sweepKeys tags c ks2 st) as [[st2 ops2] r].
  - rewrite <- app_comm_cons, !sweepKeys_cons.
    destruct (sweepKey tags c k st) as [[st1 ops1] [u|e]]; [|done].
    rewrite IH.
    destruct (sweepKeys tags c ks1 st1) as [[st2 ops2] [u'|e]]; [|done].
    destruct (sweepKeys tags c ks2 st2) as [[st3 ops3] r].
    by rewrite app_assoc.
Qed.

(** A loop over keys that ran to its end has read every key, removed what
    was to be removed among them, and nothing else. *)
Lemma sweepKeys_fulfilled tags c ks st st' ops u :
  sweepKeys tags c ks st = (st', ops, Fulfilled u) ->
  sameFaults st st' /\
  (forall k, k ∈ ks -> k ∉ getItemRejects st) /\
  (forall k, items st' !! k =
             if bool_decide (k ∈ ks) && shouldPurge tags (items st !! k)
             then None else items st !! k).
Proof.
  revert st ops. induction ks as [|k0 ks IH]; intros st ops Hrun.
  - simpl in Hrun. injection Hrun as <- <-.
    repeat split. by intros k ?%elem_of_nil.
  - rewrite sweepKeys_cons, sweepKey_unfold in Hrun.
    case_bool_decide as Hread; [done|].
    destruct (shouldPurge tags (items st !! k0)) eqn:Hp.
    + case_bool_decide as Hdel; [done|].
      destruct (sweepKeys tags c ks _) as [[st2 ops2] r] eqn:Hrest.
      injection Hrun as <- <- ->.
      apply IH in Hrest as (Hf & Hreads & Hitems). simpl in *.
      split; [done|]. split.
      * intros k [->|Hin]%elem_of_cons; auto.
      * intros k. rewrite Hitems. destruct (decide (k = k0)) as [->|Hne].
        -- rewrite lookup_delete_eq, Hp, andb_false_r.
           by rewrite bool_decide_eq_true_2 by apply list_elem_of_here.
        -- rewrite lookup_delete_ne by done.
           destruct (shouldPurge tags (items st !! k)); [|by rewrite !andb_false_r].
           rewrite !andb_true_r.
           rewrite (bool_decide_ext (k ∈ k0 :: ks) (k ∈ ks)); [done|].
           rewrite elem_of_cons. split; [intros [?|?]; done | by right].
    + destruct (sweepKeys tags c ks st) as [[st2 ops2] r] eqn:Hrest.
      injection Hrun as <- <- ->.
      apply IH in Hrest as (Hf & Hreads & Hitems).
      split; [done|]. split.
      * intros k [->|Hin]%elem_of_cons; auto.
      * intros k. rewrite Hitems. destruct (decide (k = k0)) as [->|Hne].
        -- by rewrite Hp, !andb_false_r.
        -- destruct (shouldPurge tags (items st !! k)); [|by rewrite !andb_false_r].
           rewrite !andb_true_r.
           rewrite (bool_decide_ext (k ∈ k0 :: ks) (k ∈ ks)); [done|].
           rewrite elem_of_cons. split; [intros [?|?]; done | by right].
Qed.

(** Keys that can be read and hold nothing to purge are only read. *)
Lemma sweepKeys_idle tags c ks st :
  (forall k, k ∈ ks ->
     (k ∉ getItemRejects st) /\ shouldPurge tags (items st !! k) = false) ->
  sweepKeys tags c ks st = (st, (GetItem c <$> ks), Fulfilled tt).
Proof.
  induction ks as [|k ks IH]; intros Hks; [done|].
  destruct (Hks k (list_elem_of_here _ _)) as [Hread Hp].
  rewrite sweepKeys_cons, sweepKey_unfold, Hp.
  rewrite bool_decide_eq_false_2 by done.
  rewrite IH; [done|]. intros k' Hin. apply Hks. by apply list_elem_of_further.
Qed.

(** On a backend whose reads and removals succeed, the loop runs to its
    end. *)
Lemma sweepKeys_reliable tags c ks st :
  getItemRejects st = ∅ -> removeItemRejects st = ∅ ->
  exists st' ops, sweepKeys tags c ks st = (st', ops, Fulfilled tt).
Proof.
  revert st. induction ks as [|k ks IH]; intros st Hr Hd; [by eexists _, _|].
  rewrite sweepKeys_cons, sweepKey_unfold, Hr, Hd.
  rewrite !bool_decide_eq_false_2 by set_solver.
  destruct (shouldPurge tags (items st !! k)).
  - edestruct (IH (mkStorage (delete k (items st)) (getKeysRejects st) ∅ ∅))
      as (st' & ops & ->); [done..|]. by eexists _, _.
  - edestruct (IH st) as (st' & ops & ->); [done..|]. by eexists _, _.
Qed.

Lemma getKeys_elem st k :
  k ∈ (map_to_list (items st)).*1 <-> is_Some (items st !! k).
Proof.
  rewrite list_elem_of_fmap. split.
  - intros ([k' v] & -> & Hin). apply elem_of_map_to_list in Hin. by exists v.
  - intros [v Hv]. exists (k, v). split; [done|]. by apply elem_of_map_to_list.
Qed.

Lemma sweepCache_unfold tags c st :
  sweepCache tags c st =
    if getKeysRejects st then (st, [GetKeys c], Rejected (GetKeys c))
    else let '(st', ops, r) := sweepKeys tags c (map_to_list (items st)).*1 st in
         (st', GetKeys c :: ops, r).
Proof.
  unfold sweepCache, mbind, async_bind, getKeys.
  by destruct (getKeysRejects st).
Qed.

Lemma evictedWithin_refl tags st : evictedWithin tags st st.
Proof. intros k. by left. Qed.

Lemma evictedWithin_trans tags st1 st2 st3 :
  evictedWithin tags st1 st2 -> evictedWithin tags st2 st3 ->
  evictedWithin tags st1 st3.
Proof.
  intros H12 H23 k. destruct (H12 k) as [Heq|[Hnone Hi]], (H23 k) as [Heq'|[Hnone' Hi']].
  - left. congruence.
  - right. by rewrite <- Heq.
  - right. split; [congruence|done].
  - right. by split.
Qed.

Lemma sweepKey_within tags c k st :
  evictedWithin tags st (sweepKey tags c k st).1.1.
Proof.
  rewrite sweepKey_unfold.
  case_bool_decide; [apply evictedWithin_refl|].
  destruct (shouldPurge tags (items st !! k)) eqn:Hp; [|apply evictedWithin_refl].
  case_bool_decide; [apply evictedWithin_refl|].
  intros k'. simpl. destruct (decide (k' = k)) as [->|Hne].
  - right. rewrite lookup_delete_eq. split; [done|]. by apply shouldPurge_intersects.
  - left. by rewrite lookup_delete_ne.
Qed.

(** Whether or not it runs to its end, the loop removes only items whose
    tags meet the swept ones. *)
Lemma sweepKeys_within tags c ks st :
  evictedWithin tags st (sweepKeys tags c ks st).1.1.
Proof.
  revert st. induction ks as [|k ks IH]; intros st; [apply evictedWithin_refl|].
  rewrite sweepKeys_cons.
  pose proof (sweepKey_within tags c k st) as Hk.
  destruct (sweepKey tags c k st) as [[st1 ops1] [u|e]]; [|done].
  pose proof (IH st1) as Hrest.
  destruct (sweepKeys tags c ks st1) as [[st2 ops2] r].
  by eapply evictedWithin_trans.
Qed.

Lemma sweepCache_within tags c st :
  evictedWithin tags st (sweepCache tags c st).1.1.
Proof.
  rewrite sweepCache_unfold. destruct (getKeysRejects st); [apply evictedWithin_refl|].
  pose proof (sweepKeys_within tags c (map_to_list (items st)).*1 st) as Hks.
  by destruct (sweepKeys _ _ _ _) as [[st' ops] r].
Qed.

(** A sweep of one backend that ran to its end evicted what it had to. *)
Lemma sweepCache_fulfilled tags c st st' ops u :
  sweepCache tags c st = (st', ops, Fulfilled u) ->
  sameFaults st st' /\ getKeysRejects st = false /\
  (forall k, is_Some (items st !! k) -> k ∉ getItemRejects st) /\
  (forall k, items st' !! k =
             if shouldPurge tags (items st !! k) then None else items st !! k).
Proof.
  rewrite sweepCache_unfold. destruct (getKeysRejects st) eqn:Hk; [done|].
  destruct (sweepKeys _ _ _ _) as [[st1 ops1] r] eqn:Hrun.
  intros [= <- <- ->]. apply sweepKeys_fulfilled in Hrun as (Hf & Hreads & Hitems).
  split; [done|]. split; [done|]. split.
  - intros k Hk'. by apply Hreads, getKeys_elem.
  - intros k. rewrite Hitems. case_bool_decide as Hin; [done|].
    rewrite getKeys_elem in Hin. simpl.
    destruct (items st !! k) eqn:Hv; [by destruct Hin|done].
Qed.

Lemma sweepCache_evicted tags c st st' ops u :
  sweepCache tags c st = (st', ops, Fulfilled u) -> evicted tags st st'.
Proof.
  intros (_ & _ & _ & Hitems)%sweepCache_fulfilled k. rewrite Hitems.
  rewrite <- shouldPurge_intersects.
  destruct (shouldPurge tags (items st !! k)); split; try done.
Qed.

(** Read as the claim has it: a stored item is gone afterwards exactly
    when its tags met the swept ones. *)
Lemma evicted_iff tags st st' k :
  evicted tags st st' -> is_Some (items st !! k) ->
  (items st' !! k = None <-> intersects tags (items st !! k)).
Proof.
  intros Hev [v Hv]. destruct (Hev k) as [Hgone Hkept]. split; [|done].
  intros Hnone. destruct (shouldPurge tags (items st !! k)) eqn:Hp.
  - by apply shouldPurge_intersects.
  - rewrite Hkept in Hnone; [congruence|].
    intros Hi%shouldPurge_intersects. congruence.
Qed.

Lemma sweepCache_reliable tags c st :
  reliable st -> exists st' ops, sweepCache tags c st = (st', ops, Fulfilled tt).
Proof.
  intros (Hk & Hr & Hd). rewrite sweepCache_unfold, Hk.
  destruct (sweepKeys_reliable tags c (map_to_list (items st)).*1 st Hr Hd)
    as (st' & ops & ->). by eexists _, _.
Qed.

(** Sweeping again what a completed sweep left behind only reads. *)
Lemma sweepCache_again tags c st st' ops u :
  sweepCache tags c st = (st', ops, Fulfilled u) ->
  exists ops', sweepCache tags c st' = (st', ops', Fulfilled tt) /\
               forallb (fun op => negb (isRemoveItem op)) ops' = true.
Proof.
  intros ((Hfk & Hfr & Hfd) & Hk & Hreads & Hitems)%sweepCache_fulfilled.
  rewrite sweepCache_unfold, Hfk, Hk.
  rewrite sweepKeys_idle.
  - eexists. split; [done|]. simpl. apply forallb_forall.
    intros op Hin%list_elem_of_In. by apply list_elem_of_fmap in Hin as (k & -> & _).
  - intros k Hin%getKeys_elem. rewrite Hfr.
    rewrite Hitems in Hin |- *.
    destruct (shouldPurge tags (items st !! k)) eqn:Hp; [by destruct Hin|].
    split; [by apply Hreads|done].
Qed.

(** ** All backends of the context *)

Lemma sweepContext_fulfilled tags ctx ctx' ops u :
  sweepContext tags ctx = (ctx', ops, Fulfilled u) ->
  Forall2 (onEntries (evicted tags)) ctx ctx'.
Proof.
  revert ctx' ops. induction ctx as [|[c [st|]] ctx IH]; intros ctx' ops; simpl.
  - intros [= <- <-]. constructor.
  - destruct (sweepCache tags c st) as [[st1 ops1] [u1|e]] eqn:Hc; [|done].
    destruct (sweepContext tags ctx) as [[rest' ops2] r] eqn:Hrest.
    intros [= <- <- ->]. constructor; [|by eapply IH].
    split; [done|]. simpl. by eapply sweepCache_evicted.
  - destruct (sweepContext tags ctx) as [[rest' ops2] r] eqn:Hrest.
    intros [= <- <- ->]. constructor; [|by eapply IH]. by split.
Qed.

Lemma onEntries_refl (R : Storage -> Storage -> Prop) (ctx : CacheContext) :
  (forall st, R st st) -> Forall2 (onEntries R) ctx ctx.
Proof.
  intros Hrefl. induction ctx as [|[c [st|]] ctx IH]; constructor; try done.
  split; [done|]. apply Hrefl.
Qed.

Lemma sweepContext_within tags ctx :
  Forall2 (onEntries (evictedWithin tags)) ctx (sweepContext tags ctx).1.1.
Proof.
  induction ctx as [|[c [st|]] ctx IH]; simpl.
  - constructor.
  - pose proof (sweepCache_within tags c st) as Hc.
    destruct (sweepCache tags c st) as [[st1 ops1] [u1|e]].
    + destruct (sweepContext tags ctx) as [[rest' ops2] r].
      constructor; [by split|done].
    + constructor; [by split|]. apply onEntries_refl, evictedWithin_refl.
  - destruct (sweepContext tags ctx) as [[rest' ops2] r].
    constructor; [by split|done].
Qed.

Lemma sweepContext_reliable tags ctx :
  reliableContext ctx ->
  exists ctx' ops, sweepContext tags ctx = (ctx', ops, Fulfilled tt).
Proof.
  induction 1 as [|[c [st|]] ctx Hst _ IH]; simpl.
  - by eexists _, _.
  - destruct (sweepCache_reliable tags c st Hst) as (st' & ops1 & ->).
    destruct IH as (ctx' & ops2 & ->). by eexists _, _.
  - destruct IH as (ctx' & ops2 & ->). by eexists _, _.
Qed.

Lemma sweepContext_again tags ctx ctx' ops u :
  sweepContext tags ctx = (ctx', ops, Fulfilled u) ->
  exists ops', sweepContext tags ctx' = (ctx', ops', Fulfilled tt) /\
               forallb (fun op => negb (isRemoveItem op)) ops' = true.
Proof.
  revert ctx' ops. induction ctx as [|[c [st|]] ctx IH]; intros ctx' ops; simpl.
  - intros [= <- <-]. by exists [].
  - destruct (sweepCache tags c st) as [[st1 ops1] [u1|e]] eqn:Hc; [|done].
    destruct (sweepContext tags ctx) as [[rest' ops2] r] eqn:Hrest.
    intros [= <- <- ->].
    apply sweepCache_again in Hc as (ops1' & Hc & Hops1).
    destruct (IH _ _ eq_refl) as (ops2' & Hrest' & Hops2).
    simpl. rewrite Hc, Hrest'. eexists. split; [done|].
    by rewrite forallb_app, Hops1, Hops2.
  - destruct (sweepContext tags ctx) as [[rest' ops2] r] eqn:Hrest.
    intros [= <- <- ->].
    destruct (IH _ _ eq_refl) as (ops2' & Hrest' & Hops2).
    simpl. rewrite Hrest'. by eexists.
Qed.

Lemma sweepContext_app tags pre rest :
  sweepContext tags (pre ++ rest) =
    match sweepContext tags pre with
    | (pre', ops1, Fulfilled _) =>
        let '(rest', ops2, r) := sweepContext tags rest in
        (pre' ++ rest', ops1 ++ ops2, r)
    | (pre', ops1, Rejected e) => (pre' ++ rest, ops1, Rejected e)
    end.
Proof.
  induction pre as [|[c [st|]] pre IH]; simpl.
  - by destruct (sweepContext tags rest) as [[rest' ops2] r].
  - destruct (sweepCache tags c st) as [[st1 ops1] [u1|e]]; [|done].
    rewrite IH. destruct (sweepContext tags pre) as [[pre' ops2] [u2|e]]; [|done].
    destruct (sweepContext tags rest) as [[rest' ops3] r].
    by rewrite app_assoc.
  - rewrite IH. destruct (sweepContext tags pre) as [[pre' ops2] [u2|e]]; [|done].
    by destruct (sweepContext tags rest) as [[rest' ops3] r].
Qed.

Lemma sweepKey_rejects tags c k st e :
  rejectsAt tags c k st = Some e ->
  sweepKey tags c k st = (st, opsUpTo c k e, Rejected e).
Proof.
  unfold rejectsAt. rewrite sweepKey_unfold.
  case_bool_decide as Hread; [by intros [= <-]|].
  destruct (shouldPurge tags (items st !! k)); [|done].
  case_bool_decide as Hdel; [by intros [= <-]|done].
Qed.

(** A rejected read or removal ends the loop over the keys: the keys after
    it are not visited. *)
Lemma sweepKeys_rejects tags c ks1 k ks2 st st1 ops1 e :
  sweepKeys tags c ks1 st = (st1, ops1, Fulfilled tt) ->
  rejectsAt tags c k st1 = Some e ->
  sweepKeys tags c (ks1 ++ k :: ks2) st = (st1, ops1 ++ opsUpTo c k e, Rejected e).
Proof.
  intros Hks1 Hk. rewrite sweepKeys_app, Hks1, sweepKeys_cons.
  by rewrite (sweepKey_rejects _ _ _ _ _ Hk).
Qed.

(** ** The scheduler *)

Lemma timerDelay_pos ms : 1 <= timerDelay ms.
Proof.
  unfold timerDelay. destruct ms as [d|]; [|lia].
  destruct (Z.leb_spec 1 d); simpl; [|lia].
  destruct (d <=? TIMEOUT_MAX); lia.
Qed.



Lemma add_tags newTags w :
  tags (invalidator (add newTags w)) = foldl pushTag (tags (invalidator w)) newTags.
Proof. unfold add. by destruct (timeout (invalidator w)). Qed.

Lemma add_frame newTags w :
  cacheContext (invalidator (add newTags w)) = cacheContext (invalidator w) /\
  delay (invalidator (add newTags w)) = delay (invalidator w) /\
  now (add newTags w) = now w /\
  runs (add newTags w) = runs w.
Proof. unfold add. by destruct (timeout (invalidator w)). Qed.

(** [add] with a handle in place: only the buffer changes. *)
Lemma add_armed newTags w h :
  timeout (invalidator w) = Some h ->
  timeout (invalidator (add newTags w)) = Some h /\
  timers (add newTags w) = timers w /\
  nextHandle (add newTags w) = nextHandle w.
Proof. unfold add. by intros ->. Qed.

(** [add] without a handle: one timer is armed. *)
Lemma add_idle newTags w :
  timeout (invalidator w) = None ->
  timeout (invalidator (add newTags w)) = Some (nextHandle w) /\
  timers (add newTags w) =
    enqueue {| handle := nextHandle w;
               due := now w + timerDelay (delay (invalidator w)) |} (timers w).
Proof. unfold add. by intros ->. Qed.

Lemma establish_frame cfg event w :
  tags (invalidator (establish cfg event w)) = tags (invalidator w) /\
  timeout (invalidator (establish cfg event w)) = timeout (invalidator w) /\
  timers (establish cfg event w) = timers w /\
  now (establish cfg event w) = now w /\
  nextHandle (establish cfg event w) = nextHandle w /\
  runs (establish cfg event w) = runs w.
Proof. unfold establish. by destruct (cacheContext (invalidator w)). Qed.

(** The request that nothing interrupts, in one piece. *)
Lemma handler_unfold cfg event w :
  handler cfg event w =
    match authFailure event with
    | Some e => (w, inl e)
    | None =>
        match getTagsToPurge event with
        | inl e => (w, inl e)
        | inr tags =>
            (add tags (establish cfg event w), inr {| status := "OK"; purged := tags |})
        end
    end.
Proof.
  unfold handler, handleRequest, beginRequest, establish.
  destruct (authFailure event); [done|].
  destruct (getTagsToPurge event); [done|].
  by destruct (cacheContext (invalidator w)).
Qed.

Lemma setDelay_frame d w :
  tags (invalidator (setDelay d w)) = tags (invalidator w) /\
  timeout (invalidator (setDelay d w)) = timeout (invalidator w) /\
  timers (setDelay d w) = timers w /\
  now (setDelay d w) = now w /\
  nextHandle (setDelay d w) = nextHandle w /\
  runs (setDelay d w) = runs w.
Proof. done. Qed.

Lemma suspend_frame event w :
  tags (invalidator (suspend event w)) = tags (invalidator w) /\
  timeout (invalidator (suspend event w)) = timeout (invalidator w) /\
  timers (suspend event w) = timers w /\
  now (suspend event w) = now w /\
  nextHandle (suspend event w) = nextHandle w /\
  runs (suspend event w) = runs w.
Proof.
  unfold suspend, beginRequest.
  destruct (authFailure event); [done|].
  destruct (getTagsToPurge event); [done|].
  by destruct (cacheContext (invalidator w)).
Qed.

Lemma suspend_established event w ctx :
  cacheContext (invalidator w) = Some ctx -> suspend event w = w.
Proof.
  intros Hctx. unfold suspend, beginRequest.
  destruct (authFailure event); [done|].
  destruct (getTagsToPurge event); [done|]. by rewrite Hctx.
Qed.

Lemma resume_step cfg tags w :
  (resumeRequest (inr cfg) tags w).1 =
    add tags (setDelay (orElse (cacheTagInvalidationDelay cfg)
                          (DEFAULT_CACHE_TAG_INVALIDATION_DELAY cfg)) w).
Proof. done. Qed.

(** A request either fails and changes nothing, or is an [add] after the
    lazy initialisation. *)
Lemma handler_cases cfg event w :
  (exists e, handler cfg event w = (w, inl e) /\ accepted (EvRequest event) = []) \/
  (exists l, handler cfg event w =
               (add l (establish cfg event w), inr {| status := "OK"; purged := l |}) /\
             accepted (EvRequest event) = l /\
             authFailure event = None /\ body event = BArray l).
Proof.
  rewrite handler_unfold. unfold accepted, getTagsToPurge.
  destruct (authFailure event) as [e|]; [left; by exists e|].
  destruct (body event); try (left; by eexists).
  right. by eexists.
Qed.

Lemma fire_unfold t w :
  fire t w =
    {| invalidator := (invalidate (invalidator w)).1;
       timers := timers w;
       now := Z.max (now w) (due t);
       nextHandle := nextHandle w;
       runs := runs w ++ [{| firedAt := Z.max (now w) (due t);
                             drained := (invalidate (invalidator w)).2.1.1;
                             trace := (invalidate (invalidator w)).2.1.2;
                             settled := (invalidate (invalidator w)).2.2 |}] |}.
Proof.
  unfold fire. by destruct (invalidate (invalidator w)) as [this [[swept ops] r]].
Qed.

Lemma fire_runs t w :
  runs (fire t w) =
    runs w ++ [{| firedAt := Z.max (now w) (due t);
                  drained := (invalidate (invalidator w)).2.1.1;
                  trace := (invalidate (invalidator w)).2.1.2;
                  settled := (invalidate (invalidator w)).2.2 |}].
Proof. by rewrite fire_unfold. Qed.

Lemma fire_invalidator t w :
  invalidator (fire t w) = (invalidate (invalidator w)).1.
Proof. by rewrite fire_unfold. Qed.

Lemma invalidate_unset this :
  cacheContext this = None -> invalidate this = (this, (None, [], Fulfilled tt)).
Proof. unfold invalidate. by intros ->. Qed.

Lemma invalidate_set this ctx :
  cacheContext this = Some ctx ->
  invalidate this =
    ({| tags := []; delay := delay this; timeout := None;
        cacheContext := Some (sweepContext (array_filter onlyUnique (tags this)) ctx).1.1 |},
     (Some (array_filter onlyUnique (tags this)),
      (sweepContext (array_filter onlyUnique (tags this)) ctx).1.2,
      (sweepContext (array_filter onlyUnique (tags this)) ctx).2)).
Proof.
  unfold invalidate. intros ->.
  by destruct (sweepContext _ ctx) as [[ctx' ops] r].
Qed.

Lemma invalidate_tags_NoDup this :
  NoDup (tags this) -> NoDup (tags (invalidate this).1).
Proof.
  intros Hnd. destruct (cacheContext this) as [ctx|] eqn:Hctx.
  - rewrite (invalidate_set _ _ Hctx). constructor.
  - by rewrite (invalidate_unset _ Hctx).
Qed.

Lemma runTimers_nil deadline w : runTimers deadline [] w = setTimers [] w.
Proof. done. Qed.

Lemma runTimers_due deadline t rest w :
  due t <= deadline ->
  runTimers deadline (t :: rest) w = runTimers deadline rest (fire t w).
Proof. intros H%Z.leb_le. simpl. by rewrite H. Qed.

Lemma runTimers_early deadline t rest w :
  deadline < due t ->
  runTimers deadline (t :: rest) w = setTimers (t :: rest) w.
Proof. intros H%Z.leb_gt. simpl. by rewrite H. Qed.

(** Running timers only appends to the history, and leaves the
    invalidator alone when it drains nothing. *)
Lemma runTimers_history deadline queue w :
  exists more,
    runs (runTimers deadline queue w) = runs w ++ more /\
    (omap drained more = [] ->
     invalidator (runTimers deadline queue w) = invalidator w) /\
    (queue = [] -> more = []).
Proof.
  revert w. induction queue as [|t queue IH]; intros w.
  - exists []. by rewrite app_nil_r.
  - simpl. destruct (due t <=? deadline).
    + destruct (IH (fire t w)) as (more & Hruns & Hinv & _).
      eexists (_ :: more). rewrite Hruns, fire_runs, <- app_assoc. split; [done|].
      split; [|done]. simpl.
      destruct (cacheContext (invalidator w)) as [ctx|] eqn:Hctx.
      * by rewrite (invalidate_set _ _ Hctx).
      * rewrite (invalidate_unset _ Hctx). simpl. intros Hq.
        rewrite (Hinv Hq), fire_invalidator. by rewrite (invalidate_unset _ Hctx).
    + exists []. by rewrite app_nil_r.
Qed.

Lemma elapse_history ms w :
  exists more,
    runs (elapse ms w) = runs w ++ more /\
    (omap drained more = [] -> invalidator (elapse ms w) = invalidator w) /\
    (timers w = [] -> more = []).
Proof.
  unfold elapse.
  destruct (runTimers_history (now w + Z.of_N ms) (timers w) w) as (more & ? & ? & ?).
  by exists more.
Qed.

(** What one event does to the history and to the buffer. *)
Lemma step_history cfg w e :
  exists more,
    runs (step cfg w e) = runs w ++ more /\
    (omap drained more = [] ->
     forall x, x ∈ tags (invalidator (step cfg w e))
               <-> x ∈ tags (invalidator w) \/ x ∈ accepted e).
Proof.
  destruct e as [event|event|resumed|newTags|ms]; cbn [step].
  - destruct (handler_cases cfg event w) as [(e & -> & ->)|(l & -> & -> & _)]; cbn [fst].
    + exists []. rewrite app_nil_r. split; [done|]. intros _ x.
      split; [by left|]. by intros [?|?%elem_of_nil].
    + exists []. rewrite app_nil_r.
      destruct (add_frame l (establish cfg event w)) as (_ & _ & _ & ->).
      destruct (establish_frame cfg event w) as (Ht & _ & _ & _ & _ & ->).
      split; [done|]. intros _ x. by rewrite add_tags, forEach_pushTag_elem, Ht.
  - exists []. rewrite app_nil_r.
    destruct (suspend_frame event w) as (Ht & _ & _ & _ & _ & ->).
    split; [done|]. intros _ x. rewrite Ht. simpl.
    split; [by left|]. by intros [?|?%elem_of_nil].
  - exists []. rewrite app_nil_r, resume_step.
    destruct (add_frame resumed (setDelay (orElse (cacheTagInvalidationDelay cfg)
                (DEFAULT_CACHE_TAG_INVALIDATION_DELAY cfg)) w)) as (_ & _ & _ & ->).
    split; [done|]. intros _ x. by rewrite add_tags, forEach_pushTag_elem.
  - exists []. rewrite app_nil_r.
    destruct (add_frame newTags w) as (_ & _ & _ & ->).
    split; [done|]. intros _ x. by rewrite add_tags, forEach_pushTag_elem.
  - destruct (elapse_history ms w) as (more & Hruns & Hinv & _).
    exists more. split; [done|]. intros Hq x. rewrite (Hinv Hq).
    split; [by left|]. by intros [?|?%elem_of_nil].
Qed.

Lemma run_cons cfg e events w :
  run cfg (e :: events) w = run cfg events (step cfg w e).
Proof. done. Qed.

Lemma run_app cfg events1 events2 w :
  run cfg (events1 ++ events2) w = run cfg events2 (run cfg events1 w).
Proof. unfold run. apply foldl_app. Qed.

Lemma run_history cfg events w :
  exists more,
    runs (run cfg events w) = runs w ++ more /\
    (omap drained more = [] ->
     forall x, x ∈ tags (invalidator (run cfg events w))
               <-> x ∈ tags (invalidator w) \/ x ∈ added events).
Proof.
  revert w. induction events as [|e events IH]; intros w.
  - exists []. rewrite app_nil_r. split; [done|]. intros _ x. simpl.
    split; [by left|]. by intros [?|?%elem_of_nil].
  - rewrite run_cons.
    destruct (step_history cfg w e) as (more1 & Hruns1 & Htags1).
    destruct (IH (step cfg w e)) as (more2 & Hruns2 & Htags2).
    exists (more1 ++ more2). rewrite Hruns2, Hruns1, <- app_assoc. split; [done|].
    rewrite omap_app. intros [Hq1 Hq2]%app_eq_nil x.
    rewrite (Htags2 Hq2), (Htags1 Hq1). unfold added. simpl.
    rewrite elem_of_app. fold (added events). tauto.
Qed.

(** Without a sweep in between, the buffer holds what was there plus what
    was added. *)
Lemma quiet_window cfg events w :
  sweeps (run cfg events w) = sweeps w ->
  forall x, x ∈ tags (invalidator (run cfg events w))
            <-> x ∈ tags (invalidator w) \/ x ∈ added events.
Proof.
  unfold sweeps. destruct (run_history cfg events w) as (more & -> & Htags).
  rewrite omap_app. intros Hq. apply Htags.
  apply (app_inv_head (omap drained (runs w))). by rewrite app_nil_r.
Qed.

(** The buffer never holds a tag twice. *)
Lemma runTimers_tags_NoDup deadline queue w :
  NoDup (tags (invalidator w)) ->
  NoDup (tags (invalidator (runTimers deadline queue w))).
Proof.
  revert w. induction queue as [|t queue IH]; intros w Hnd; [done|].
  simpl. destruct (due t <=? deadline); [|done].
  apply IH. rewrite fire_invalidator. by apply invalidate_tags_NoDup.
Qed.

Lemma step_tags_NoDup cfg w e :
  NoDup (tags (invalidator w)) -> NoDup (tags (invalidator (step cfg w e))).
Proof.
  intros Hnd. destruct e as [event|event|resumed|newTags|ms]; cbn [step].
  - destruct (handler_cases cfg event w) as [(e & -> & _)|(l & -> & _)]; simpl; [done|].
    rewrite add_tags. apply forEach_pushTag_NoDup.
    by destruct (establish_frame cfg event w) as (-> & _).
  - by destruct (suspend_frame event w) as (-> & _).
  - rewrite resume_step, add_tags. by apply forEach_pushTag_NoDup.
  - rewrite add_tags. by apply forEach_pushTag_NoDup.
  - unfold elapse. simpl. by apply runTimers_tags_NoDup.
Qed.

Lemma run_tags_NoDup cfg events w :
  NoDup (tags (invalidator w)) -> NoDup (tags (invalidator (run cfg events w))).
Proof.
  revert w. induction events as [|e events IH]; intros w Hnd; [done|].
  rewrite run_cons. by apply IH, step_tags_NoDup.
Qed.

(** *** At most one timer *)

Lemma wellArmed_cases w :
  wellArmed w <->
  timers w = [] \/
  exists t, timers w = [t] /\ timeout (invalidator w) = Some (handle t) /\ now w < due t.
Proof.
  unfold wellArmed. destruct (timers w) as [|t [|u queue]].
  - split; [by left|done].
  - split; [intros [? ?]; right; by exists t|].
    by intros [?|(t' & [= <-] & ? & ?)].
  - split; [done|]. by intros [?|(t' & ? & _)].
Qed.

Lemma wellArmed_frame w w' :
  timers w' = timers w ->
  timeout (invalidator w') = timeout (invalidator w) ->
  now w' = now w ->
  wellArmed w -> wellArmed w'.
Proof. unfold wellArmed. by intros -> -> ->. Qed.

Lemma wellArmed_idle w :
  wellArmed w -> timeout (invalidator w) = None -> timers w = [].
Proof.
  intros [H|(t & _ & Ht & _)]%wellArmed_cases Hnone; [done|congruence].
Qed.

Lemma wellArmed_boot : wellArmed boot.
Proof. done. Qed.

Lemma wellArmed_add newTags w : wellArmed w -> wellArmed (add newTags w).
Proof.
  intros Hw. destruct (timeout (invalidator w)) as [h|] eqn:Hto.
  - destruct (add_armed newTags w h Hto) as (Hto' & Hq & _).
    destruct (add_frame newTags w) as (_ & _ & Hnow & _).
    eapply wellArmed_frame; [done| |done..]. by rewrite Hto, Hto'.
  - destruct (add_idle newTags w Hto) as (Hto' & Hq).
    destruct (add_frame newTags w) as (_ & _ & Hnow & _).
    rewrite (wellArmed_idle w Hw Hto) in Hq. simpl in Hq.
    apply wellArmed_cases. right. eexists. split; [done|].
    split; [done|]. simpl. rewrite Hnow.
    pose proof (timerDelay_pos (delay (invalidator w))). lia.
Qed.

Lemma wellArmed_elapse ms w : wellArmed w -> wellArmed (elapse ms w).
Proof.
  intros [Hq|(t & Hq & Hto & Hnow)]%wellArmed_cases; apply wellArmed_cases.
  - left. unfold elapse. by rewrite Hq.
  - unfold elapse. rewrite Hq.
    destruct (Z.le_gt_cases (due t) (now w + Z.of_N ms)) as [Hdue|Hearly].
    + left. by rewrite runTimers_due.
    + right. exists t. rewrite runTimers_early by done. simpl. by repeat split.
Qed.

Lemma wellArmed_step cfg w e : wellArmed w -> wellArmed (step cfg w e).
Proof.
  intros Hw. destruct e as [event|event|resumed|newTags|ms]; cbn [step].
  - destruct (handler_cases cfg event w) as [(e & -> & _)|(l & -> & _)]; cbn [fst]; [done|].
    apply wellArmed_add.
    destruct (establish_frame cfg event w) as (_ & ? & ? & ? & _).
    by eapply wellArmed_frame.
  - destruct (suspend_frame event w) as (_ & ? & ? & ? & _).
    by eapply wellArmed_frame.
  - rewrite resume_step. by apply wellArmed_add.
  - by apply wellArmed_add.
  - by apply wellArmed_elapse.
Qed.

Lemma wellArmed_run cfg events w : wellArmed w -> wellArmed (run cfg events w).
Proof.
  revert w. induction events as [|e events IH]; intros w Hw; [done|].
  rewrite run_cons. by apply IH, wellArmed_step.
Qed.


(** *** One debounce window *)




(** The pending timer fires once the clock reaches its due time. *)
Lemma elapse_fires ms w t :
  timers w = [t] -> now w < due t -> due t <= now w + Z.of_N ms ->
  timers (elapse ms w) = [] /\
  invalidator (elapse ms w) = (invalidate (invalidator w)).1 /\
  runs (elapse ms w) =
    runs w ++ [{| firedAt := due t;
                  drained := (invalidate (invalidator w)).2.1.1;
                  trace := (invalidate (invalidator w)).2.1.2;
                  settled := (invalidate (invalidator w)).2.2 |}].
Proof.
  intros Hq Hnow Hdue. unfold elapse.
  rewrite Hq, runTimers_due, runTimers_nil by done. simpl.
  rewrite fire_invalidator, fire_runs.
  by replace (Z.max (now w) (due t)) with (due t) by lia.
Qed.

(** *** The stale handle *)

Lemma stuck_step cfg w e :
  stuck w ->
  stuck (step cfg w e) /\
  timeout (invalidator (step cfg w e)) = timeout (invalidator w) /\
  runs (step cfg w e) = runs w.
Proof.
  intros [Hq Hto]. destruct (timeout (invalidator w)) as [h|] eqn:Hh; [|done].
  unfold stuck. destruct e as [event|event|resumed|newTags|ms]; cbn [step].
  - destruct (handler_cases cfg event w) as [(e & -> & _)|(l & -> & _)]; cbn [fst].
    + by rewrite Hq, Hh.
    + destruct (establish_frame cfg event w) as (_ & Hto' & Hq' & _ & _ & Hruns').
      rewrite Hh in Hto'.
      destruct (add_armed l _ _ Hto') as (-> & -> & _).
      destruct (add_frame l (establish cfg event w)) as (_ & _ & _ & ->).
      by rewrite Hq', Hq, Hruns'.
  - destruct (suspend_frame event w) as (_ & -> & -> & _ & _ & ->). by rewrite Hq, Hh.
  - rewrite resume_step.
    destruct (add_armed resumed (setDelay (orElse (cacheTagInvalidationDelay cfg)
                (DEFAULT_CACHE_TAG_INVALIDATION_DELAY cfg)) w) _ Hh) as (-> & -> & _).
    by destruct (add_frame resumed (setDelay (orElse (cacheTagInvalidationDelay cfg)
                (DEFAULT_CACHE_TAG_INVALIDATION_DELAY cfg)) w)) as (_ & _ & _ & ->).
  - destruct (add_armed newTags _ _ Hh) as (-> & -> & _).
    by destruct (add_frame newTags w) as (_ & _ & _ & ->).
  - unfold elapse. rewrite Hq, runTimers_nil. simpl. by rewrite Hh.
Qed.

Lemma stuck_run cfg events w :
  stuck w ->
  stuck (run cfg events w) /\
  timeout (invalidator (run cfg events w)) = timeout (invalidator w) /\
  runs (run cfg events w) = runs w.
Proof.
  revert w. induction events as [|e events IH]; intros w Hs; [done|].
  rewrite run_cons.
  destruct (stuck_step cfg w e Hs) as (Hs1 & Hto1 & Hruns1).
  destruct (IH _ Hs1) as (? & ? & ?).
  repeat split; [apply H..|congruence|congruence].
Qed.

(** After a timer expired with the context in place, the buffer and the
    handle are cleared, and the next [add] arms a timer again. *)
Lemma fire_clears t w ctx newTags :
  cacheContext (invalidator w) = Some ctx ->
  tags (invalidator (fire t w)) = [] /\
  timeout (invalidator (fire t w)) = None /\
  timeout (invalidator (add newTags (fire t w))) = Some (nextHandle w).
Proof.
  intros Hctx. rewrite fire_unfold, (invalidate_set _ _ Hctx). by simpl.
Qed.

(** * The claims *)

(** ** Sweep *)

(** C1, as the code has it.  With the cache context established,
    [invalidate] drains the pending tags and sweeps the backends of the
    context.  In every sweep, an item is removed only if it carried
    [cacheTags] with a tag among the drained ones, and every other item
    is left as it was.  When no backend operation rejects, the sweep runs
    to its end and then, under every key of every backend, the item is
    gone if and only if its tags met the drained ones. *)
Theorem invalidate_evicts_intersecting this ctx :
  cacheContext this = Some ctx ->
  exists swept ctx' ops r,
    invalidate this =
      ({| tags := []; delay := delay this; timeout := None;
          cacheContext := Some ctx' |},
       (Some swept, ops, r)) /\
    (forall t, t ∈ swept <-> t ∈ tags this) /\
    Forall2 (onEntries (evictedWithin swept)) ctx ctx' /\
    (reliableContext ctx -> r = Fulfilled tt) /\
    (r = Fulfilled tt -> Forall2 (onEntries (evicted swept)) ctx ctx').
Proof.
  intros Hctx. rewrite (invalidate_set _ _ Hctx).
  set (swept := array_filter onlyUnique (tags this)).
  pose proof (sweepContext_within swept ctx) as Hwithin.
  destruct (sweepContext swept ctx) as [[ctx' ops] r] eqn:Hsweep.
  exists swept, ctx', ops, r. simpl in *.
  split; [done|]. split; [|split; [done|split]].
  - intros t. apply array_filter_onlyUnique_elem.
  - intros Hrel.
    destruct (sweepContext_reliable swept ctx Hrel) as (ctx1 & ops1 & Hful). congruence.
  - intros ->. by eapply sweepContext_fulfilled.
Qed.

(** The sweep for [t1] over the sample context, whose backend is reliable. *)
Lemma invalidate_evicts_intersecting_witness :
  let this := {| tags := ["t1"]; delay := Some 2000; timeout := Some 1%nat;
                 cacheContext := Some dataContext |} in
  exists ctx' ops,
    invalidate this =
      ({| tags := []; delay := delay this; timeout := None;
          cacheContext := Some ctx' |},
       (Some ["t1"], ops, Fulfilled tt)) /\
    Forall2 (onEntries (evicted ["t1"])) dataContext ctx'.
Proof.
  intros this.
  destruct (invalidate_evicts_intersecting this dataContext eq_refl)
    as (swept & ctx' & ops & r & Hrun & _ & _ & Hrel & Hexact).
  assert (r = Fulfilled tt) as ->.
  { apply Hrel. repeat constructor. }
  assert (swept = ["t1"]) as ->.
  { vm_compute in Hrun. congruence. }
  exists ctx', ops. split; [exact Hrun|]. exact (Hexact eq_refl).
Defined.

(** C1 fails for a sweep in which an operation rejects.  The context is
    established and the drained tags are [t1]; [k2] is among the keys
    enumerated from the second backend, reading it succeeds and yields an
    item tagged [t1]; the read of [k1] before it rejects, and [k2] is
    still stored after the sweep. *)
Lemma tagged_item_survives_rejected_sweep :
  let '(this, (swept, ops, r)) := invalidate flakyInvalidator in
  swept = Some ["t1"] /\
  "k2" ∈ (map_to_list (items flakyStore)).*1 /\
  ("k2" ∉ getItemRejects flakyStore) /\
  intersects ["t1"] (items flakyStore !! "k2") /\
  exists st0 st1,
    cacheContext this =
      Some [("component", Some st0); ("data", Some st1); ("route", Some routeStore)] /\
    items st1 !! "k2" = Some (Object (Some ["t1"])).
Proof.
  destruct (invalidate flakyInvalidator) as [this [[swept ops] r]] eqn:Hrun.
  vm_compute in Hrun. injection Hrun as <- <- <- <-.
  split; [reflexivity|]. split; [|split; [|split]].
  - apply getKeys_elem. vm_compute. by eexists.
  - by vm_compute.
  - exists ["t1"], "t1". split; [by vm_compute|]. split; apply list_elem_of_here.
  - eexists _, _. split; [reflexivity|]. by vm_compute.
Qed.

(** The scenario of the specification: [k1] goes, [k2] stays. *)
Example purge_t1_scenario :
  let w := run settings
             [EvRequest (purgeRequest ["t1"] (Some dataContext)); EvElapse 2000] boot in
  exists st, cacheContext (invalidator w) = Some [("component", None); ("data", Some st)] /\
             items st !! "k1" = None /\
             items st !! "k2" = Some (Object (Some ["t3"])).
Proof. vm_compute. eexists. split; [reflexivity|]. by vm_compute. Qed.

(** C3, as the code has it.  No rejection is caught: when the read or the
    removal for key [k] of backend [c] rejects, the sweep ends there.  The
    backends before [c] and the keys of [c] before [k] were swept; the
    keys after [k] and the backends after [c] are not visited; the
    promise of [invalidate] rejects with that failure.  The buffer and
    the handle were cleared before the sweep began. *)
Theorem sweep_ends_at_rejection this pre c st post ks1 k ks2 pre' opsPre st1 ops1 e :
  cacheContext this = Some (pre ++ (c, Some st) :: post) ->
  sweepContext (array_filter onlyUnique (tags this)) pre = (pre', opsPre, Fulfilled tt) ->
  getKeysRejects st = false ->
  (map_to_list (items st)).*1 = ks1 ++ k :: ks2 ->
  sweepKeys (array_filter onlyUnique (tags this)) c ks1 st = (st1, ops1, Fulfilled tt) ->
  rejectsAt (array_filter onlyUnique (tags this)) c k st1 = Some e ->
  invalidate this =
    ({| tags := []; delay := delay this; timeout := None;
        cacheContext := Some (pre' ++ (c, Some st1) :: post) |},
     (Some (array_filter onlyUnique (tags this)),
      opsPre ++ GetKeys c :: ops1 ++ opsUpTo c k e,
      Rejected e)).
Proof.
  intros Hctx Hpre Hkeys Hks Hks1 Hk.
  rewrite (invalidate_set _ _ Hctx), sweepContext_app, Hpre. simpl.
  rewrite sweepCache_unfold, Hkeys, Hks.
  by rewrite (sweepKeys_rejects _ _ _ _ _ _ _ _ _ Hks1 Hk).
Qed.

(** The sample context with the rejecting read: [k3] was visited before
    [k1], and [k2] is left behind. *)
Lemma sweep_ends_at_rejection_witness :
  exists pre' opsPre st1 ops1,
    invalidate flakyInvalidator =
      ({| tags := []; delay := Some 2000; timeout := None;
          cacheContext :=
            Some (pre' ++ ("data", Some st1) :: [("route", Some routeStore)]) |},
       (Some ["t1"],
        opsPre ++ GetKeys "data" :: ops1 ++ [GetItem "data" "k1"],
        Rejected (GetItem "data" "k1"))) /\
    items st1 !! "k2" = Some (Object (Some ["t1"])).
Proof.
  eexists _, _, _, _. split.
  - refine (sweep_ends_at_rejection flakyInvalidator
              [("component", Some componentStore)] "data" flakyStore
              [("route", Some routeStore)] ["k3"] "k1" ["k2"] _ _ _ _
              (GetItem "data" "k1") _ _ _ _ _ _).
    + reflexivity.
    + vm_compute. reflexivity.
    + reflexivity.
    + vm_compute. reflexivity.
    + vm_compute. reflexivity.
    + vm_compute. reflexivity.
  - vm_compute. reflexivity.
Defined.

(** C3 fails.  Reading [k1] of the second backend rejects: [k2] of that
    backend and [k4] of the third one carry the swept tag and are still
    there afterwards, neither was read, and the promise of [invalidate]
    is rejected. *)
Lemma rejected_read_aborts_sweep :
  exists st1,
    invalidate flakyInvalidator =
      ({| tags := []; delay := Some 2000; timeout := None;
          cacheContext :=
            Some [("component",
                   Some {| items := ∅; getKeysRejects := false;
                           getItemRejects := ∅; removeItemRejects := ∅ |});
                  ("data", Some st1);
                  ("route", Some routeStore)] |},
       (Some ["t1"],
        [GetKeys "component"; GetItem "component" "k0"; RemoveItem "component" "k0";
         GetKeys "data"; GetItem "data" "k3"; RemoveItem "data" "k3";
         GetItem "data" "k1"],
        Rejected (GetItem "data" "k1"))) /\
    shouldPurge ["t1"] (items st1 !! "k2") = true /\
    shouldPurge ["t1"] (items routeStore !! "k4") = true.
Proof. eexists. split; [vm_compute; reflexivity|]. by vm_compute. Qed.



(** C9. A sweep that ran to its end, run again for the same tags with no
    write in between, ends in the same state, removes nothing and is
    fulfilled as well.  (The first run empties the buffer, so the second
    run is given the tags of the first one again.) *)
Theorem sweep_twice_removes_nothing this this1 swept ops1 :
  invalidate this = (this1, (swept, ops1, Fulfilled tt)) ->
  exists ops2,
    invalidate {| tags := tags this; delay := delay this1;
                  timeout := timeout this1; cacheContext := cacheContext this1 |}
      = (this1, (swept, ops2, Fulfilled tt)) /\
    forallb (fun op => negb (isRemoveItem op)) ops2 = true.
Proof.
  destruct (cacheContext this) as [ctx|] eqn:Hctx.
  - rewrite (invalidate_set _ _ Hctx).
    destruct (sweepContext _ ctx) as [[ctx' ops] r] eqn:Hsweep. simpl.
    intros [= <- <- <- ->]. simpl.
    apply sweepContext_again in Hsweep as (ops2 & Hagain & Hops).
    exists ops2. split; [|done].
    erewrite invalidate_set by reflexivity. simpl. by rewrite Hagain.
  - rewrite (invalidate_unset _ Hctx). intros [= <- <- <-].
    exists []. split; [|done]. destruct this; simpl in *; subst.
    by apply invalidate_unset.
Qed.

(** The sweep for [t1] over the sample context, twice. *)
Lemma sweep_twice_removes_nothing_witness :
  let this := {| tags := ["t1"]; delay := Some 2000; timeout := Some 1%nat;
                 cacheContext := Some dataContext |} in
  let this1 :=
    {| tags := []; delay := Some 2000; timeout := None;
       cacheContext :=
         Some [("component", None);
               ("data", Some {| items := <["k2" := Object (Some ["t3"])]> ∅;
                                getKeysRejects := false; getItemRejects := ∅;
                                removeItemRejects := ∅ |})] |} in
  let ops1 := [GetKeys "data"; GetItem "data" "k1"; RemoveItem "data" "k1";
               GetItem "data" "k2"] in
  invalidate this = (this1, (Some ["t1"], ops1, Fulfilled tt)) /\
  exists ops2,
    invalidate {| tags := ["t1"]; delay := delay this1;
                  timeout := timeout this1; cacheContext := cacheContext this1 |}
      = (this1, (Some ["t1"], ops2, Fulfilled tt)) /\
    forallb (fun op => negb (isRemoveItem op)) ops2 = true.
Proof.
  intros this this1 ops1.
  assert (invalidate this = (this1, (Some ["t1"], ops1, Fulfilled tt))) as Hrun.
  { vm_compute. reflexivity. }
  split; [exact Hrun|].
  exact (sweep_twice_removes_nothing this this1 (Some ["t1"]) ops1 Hrun).
Defined.

(** ** Scheduler *)




(** The scenarios of the specification: two calls ten milliseconds apart
    are served by one sweep, two seconds after the first call; the same
    calls farther apart than the delay are served by two sweeps. *)
Example coalescing_scenario :
  let first := EvRequest (purgeRequest ["t1"] (Some dataContext)) in
  let second := EvRequest (purgeRequest ["t1"; "t2"] (Some dataContext)) in
  let near := run settings [first; EvElapse 10; second; EvElapse 5000] boot in
  let far := run settings [first; EvElapse 2500; second; EvElapse 5000] boot in
  (firedAt <$> runs near) = [2000] /\ sweeps near = [["t1"; "t2"]] /\
  (firedAt <$> runs far) = [2000; 4500] /\ sweeps far = [["t1"]; ["t1"; "t2"]].
Proof. vm_compute. done. Qed.

(** C4, as the code has it.  A request whose body is not an array (such
    as [null] or nothing at all) is answered with the 400 error and
    changes nothing.  An empty array is accepted: the answer is the
    confirmation with no tags, and the request goes on to [add].  [add]
    with no tags leaves the buffer as it is; it arms a timer when no
    handle is set, and changes nothing when one is. *)
Theorem purge_without_tags cfg event w :
  (authFailure event = None -> (forall l, body event <> BArray l) ->
   handler cfg event w =
     (w, inl {| statusCode := 400; statusMessage := "No valid tags provided." |})) /\
  (authFailure event = None -> body event = BArray [] ->
   handler cfg event w =
     (add [] (establish cfg event w), inr {| status := "OK"; purged := [] |})) /\
  tags (invalidator (add [] w)) = tags (invalidator w) /\
  (timeout (invalidator w) = None ->
   timeout (invalidator (add [] w)) = Some (nextHandle w) /\
   timers (add [] w) =
     enqueue {| handle := nextHandle w;
                due := now w + timerDelay (delay (invalidator w)) |} (timers w)) /\
  (forall h, timeout (invalidator w) = Some h -> add [] w = w).
Proof.
  split; [|split; [|split; [|split]]].
  - intros Hauth Hbody. rewrite handler_unfold. unfold getTagsToPurge. rewrite Hauth.
    destruct (body event) as [| | | | |l|]; try done. by destruct (Hbody l).
  - intros Hauth Hbody. rewrite handler_unfold. unfold getTagsToPurge.
    by rewrite Hauth, Hbody.
  - by rewrite add_tags.
  - apply add_idle.
  - intros h Hto. destruct w as [[tg dl to ctx] q n nh rs]. simpl in *. by subst.
Qed.

(** A [null] body, an empty array, and [add] with no tags before and
    after a timer was armed. *)
Lemma purge_without_tags_witness :
  let nullRequest := {| authFailure := None; params := []; body := BNull;
                        multiCacheContext := Some dataContext |} in
  handler settings nullRequest boot =
    (boot, inl {| statusCode := 400; statusMessage := "No valid tags provided." |}) /\
  handler settings (purgeRequest [] (Some dataContext)) boot =
    (add [] (establish settings (purgeRequest [] (Some dataContext)) boot),
     inr {| status := "OK"; purged := [] |}) /\
  timers (add [] boot) = [{| handle := 1; due := 1 |}] /\
  add [] (add ["a"] boot) = add ["a"] boot.
Proof.
  intros nullRequest. split; [|split; [|split]].
  - destruct (purge_without_tags settings nullRequest boot) as (Hnull & _).
    apply Hnull; [reflexivity|]. intros l. discriminate.
  - destruct (purge_without_tags settings (purgeRequest [] (Some dataContext)) boot)
      as (_ & Hempty & _).
    apply Hempty; reflexivity.
  - destruct (purge_without_tags settings nullRequest boot) as (_ & _ & _ & Hidle & _).
    destruct Hidle as [_ Hq]; [reflexivity|]. exact Hq.
  - destruct (purge_without_tags settings nullRequest (add ["a"] boot))
      as (_ & _ & _ & _ & Harmed).
    apply (Harmed 1%nat). reflexivity.
Defined.

(** C4 fails.  A request with an empty array is answered with the
    confirmation, and a timer is armed by it; [add] with no tags arms a
    timer as well. *)
Lemma empty_purge_arms_timer :
  let '(w, answer) := handler settings (purgeRequest [] (Some dataContext)) boot in
  answer = inr {| status := "OK"; purged := [] |} /\
  timers boot = [] /\
  timers w = [{| handle := 1; due := 2000 |}] /\
  timers (add [] boot) = [{| handle := 1; due := 1 |}].
Proof. vm_compute. done. Qed.

(** C5: what the handler does with a single tag.  Whether the tag is the
    body itself or a router parameter, the request is answered with the
    400 error and nothing changes; only an array is accepted. *)
Theorem single_tag_rejected cfg w tag ctx :
  handler cfg {| authFailure := None; params := []; body := BString tag;
                 multiCacheContext := ctx |} w =
    (w, inl {| statusCode := 400; statusMessage := "No valid tags provided." |}) /\
  handler cfg {| authFailure := None; params := [("tag", tag)]; body := BUndefined;
                 multiCacheContext := ctx |} w =
    (w, inl {| statusCode := 400; statusMessage := "No valid tags provided." |}) /\
  forall l, handler cfg (purgeRequest l ctx) w =
              (add l (establish cfg (purgeRequest l ctx) w),
               inr {| status := "OK"; purged := l |}).
Proof.
  split; [done|]. split; [done|]. intros l. by rewrite handler_unfold.
Qed.

(** C6: a timer that expires while the context is unset.  The first
    request found no context on its event; when its timer expires, the
    buffer still holds the tag and the handle is still set, and the next
    [add] arms no timer. *)
Theorem expiry_without_context_clears_nothing :
  let w := run settings [EvRequest (purgeRequest ["a"] None); EvElapse 2000] boot in
  runs w = [{| firedAt := 2000; drained := None; trace := []; settled := Fulfilled tt |}] /\
  tags (invalidator w) = ["a"] /\
  timeout (invalidator w) = Some 1%nat /\
  timers w = [] /\
  timers (add ["b"] w) = [] /\
  timers (run settings [EvRequest (purgeRequest ["b"] (Some dataContext))] w) = [].
Proof. vm_compute. done. Qed.

(** C8. The buffer of a reachable state never holds a tag twice.  Starting
    from an empty buffer, if no sweep happens during a list of events,
    the next expiry with the context in place drains a list that has
    exactly the tags added by those events, each once, and leaves the
    buffer empty again. *)
Theorem drained_tags_exact cfg :
  (forall events, NoDup (tags (invalidator (run cfg events boot)))) /\
  (forall w window t,
     let wk := run cfg window w in
     tags (invalidator w) = [] ->
     sweeps wk = sweeps w ->
     cacheContext (invalidator wk) <> None ->
     exists d,
       sweeps (fire t wk) = sweeps w ++ [d] /\
       NoDup d /\
       (forall x, x ∈ d <-> x ∈ added window) /\
       tags (invalidator (fire t wk)) = []).
Proof.
  split.
  - intros events. apply run_tags_NoDup. constructor.
  - intros w window t wk Hempty Hquiet Hctx.
    destruct (cacheContext (invalidator wk)) as [ctx|] eqn:Hsome; [|done].
    exists (array_filter onlyUnique (tags (invalidator wk))).
    split; [|split; [|split]].
    + unfold sweeps. rewrite fire_runs, omap_app. fold (sweeps wk).
      rewrite Hquiet. simpl. by rewrite (invalidate_set _ _ Hsome).
    + apply array_filter_onlyUnique_NoDup.
    + intros x. rewrite array_filter_onlyUnique_elem. unfold wk.
      rewrite (quiet_window cfg window w Hquiet), Hempty.
      split; [|by right]. by intros [?%elem_of_nil|?].
    + by rewrite fire_invalidator, (invalidate_set _ _ Hsome).
Qed.

(** Overlapping tags from a request and a later [add]. *)
Lemma drained_tags_exact_witness :
  let window := [EvRequest (purgeRequest ["a"; "b"] (Some dataContext)); EvElapse 10;
                 EvAdd ["b"; "c"; "a"]] in
  let wk := run settings window boot in
  exists d,
    sweeps (fire {| handle := 1; due := 2000 |} wk) = [d] /\
    NoDup d /\
    (forall x, x ∈ d <-> x ∈ ["a"; "b"; "b"; "c"; "a"]) /\
    tags (invalidator (fire {| handle := 1; due := 2000 |} wk)) = [].
Proof.
  intros window wk.
  destruct (drained_tags_exact settings) as [_ Hdrain].
  apply (Hdrain boot window {| handle := 1; due := 2000 |}).
  - reflexivity.
  - vm_compute. reflexivity.
  - vm_compute. discriminate.
Defined.

(** C10. A timer that expires while the context is unset leaves its
    handle in [timeout].  From then on, whatever requests, [add]s and
    waits follow (even requests that do establish the context), the
    handle stays, no timer is armed, [invalidate] is never called again,
    and the tags that are added pile up in the buffer. *)
Theorem stale_handle_blocks_sweeps cfg events ms :
  let w := run cfg events boot in
  let w1 := elapse ms w in
  timers w <> [] ->
  cacheContext (invalidator w) = None ->
  (forall t, t ∈ timers w -> due t <= now w + Z.of_N ms) ->
  timers w1 = [] /\
  timeout (invalidator w1) = timeout (invalidator w) /\
  timeout (invalidator w1) <> None /\
  forall later,
    let w2 := run cfg later w1 in
    timeout (invalidator w2) = timeout (invalidator w1) /\
    timers w2 = [] /\
    runs w2 = runs w1 /\
    sweeps w2 = sweeps w /\
    (forall x, x ∈ tags (invalidator w2) <-> x ∈ tags (invalidator w) \/ x ∈ added later).
Proof.
  intros w w1 Harmed Hctx Hdue.
  pose proof (wellArmed_run cfg events boot wellArmed_boot) as Hw. fold w in Hw.
  apply wellArmed_cases in Hw as [Hq|(t & Hq & Hto & Hnow)]; [done|].
  destruct (elapse_fires ms w t Hq Hnow) as (Hq1 & Hinv1 & Hruns1).
  { apply Hdue. rewrite Hq. apply list_elem_of_here. }
  fold w1 in Hq1, Hinv1, Hruns1.
  rewrite (invalidate_unset _ Hctx) in Hinv1, Hruns1. cbn [fst snd] in Hinv1, Hruns1.
  assert (sweeps w1 = sweeps w) as Hsweeps1.
  { unfold sweeps. rewrite Hruns1, omap_app. simpl. by rewrite app_nil_r. }
  assert (stuck w1) as Hstuck.
  { split; [done|]. by rewrite Hinv1, Hto. }
  split; [done|]. split; [by rewrite Hinv1|]. split; [by rewrite Hinv1, Hto|].
  intros later w2.
  destruct (stuck_run cfg later w1 Hstuck) as ([Hq2 _] & Hto2 & Hruns2).
  fold w2 in Hq2, Hto2, Hruns2.
  assert (sweeps w2 = sweeps w1) as Hsweeps2.
  { unfold sweeps. by rewrite Hruns2. }
  split; [done|]. split; [done|]. split; [done|]. split; [congruence|].
  intros x. unfold w2. rewrite (quiet_window cfg later w1 Hsweeps2). by rewrite Hinv1.
Qed.

(** The first request finds no context; a later one does. *)
Lemma stale_handle_blocks_sweeps_witness :
  let w := run settings [EvRequest (purgeRequest ["a"] None)] boot in
  let w1 := elapse 2000 w in
  let later := [EvRequest (purgeRequest ["b"] (Some dataContext)); EvElapse 5000] in
  let w2 := run settings later w1 in
  timeout (invalidator w2) = timeout (invalidator w1) /\
  timers w2 = [] /\
  runs w2 = runs w1 /\
  sweeps w2 = sweeps w /\
  (forall x, x ∈ tags (invalidator w2) <-> x ∈ tags (invalidator w) \/ x ∈ added later).
Proof.
  intros w w1 later w2.
  destruct (stale_handle_blocks_sweeps settings [EvRequest (purgeRequest ["a"] None)] 2000)
    as (_ & _ & _ & Hlater).
  - vm_compute. discriminate.
  - reflexivity.
  - intros t Ht. vm_compute in Ht.
    apply list_elem_of_singleton in Ht. subst t. vm_compute. discriminate.
  - exact (Hlater later).
Defined.

(** * Further properties *)

(** ** [onlyUnique] and the buffer *)

Lemma filter_from_sublist f self index rest :
  filter_from f self index rest `sublist_of` rest.
Proof.
  revert index. induction rest as [|x rest IH]; intros index; simpl; [constructor|].
  destruct (f x index self); [by apply sublist_skip|by apply sublist_cons].
Qed.

Lemma onlyUnique_here pre rest x :
  onlyUnique x (Z.of_nat (length pre)) (pre ++ x :: rest) = bool_decide (x ∉ pre).
Proof.
  destruct (onlyUnique _ _ _) eqn:Hu.
  - apply onlyUnique_first in Hu. by rewrite bool_decide_eq_true_2.
  - rewrite bool_decide_eq_false_2; [done|]. intros Hnot.
    apply (onlyUnique_first pre rest) in Hnot. congruence.
Qed.

Lemma filter_onlyUnique_snoc pre rest x :
  filter_from onlyUnique (pre ++ rest ++ [x]) (Z.of_nat (length pre)) (rest ++ [x]) =
  filter_from onlyUnique (pre ++ rest) (Z.of_nat (length pre)) rest ++
  (if bool_decide (x ∈ pre ++ rest) then [] else [x]).
Proof.
  revert pre. induction rest as [|y rest IH]; intros pre.
  - simpl. rewrite onlyUnique_here, app_nil_r.
    destruct (decide (x ∈ pre)) as [Hin|Hnot].
    + by rewrite bool_decide_eq_false_2, bool_decide_eq_true_2 by auto.
    + by rewrite bool_decide_eq_true_2, bool_decide_eq_false_2 by auto.
  - specialize (IH (pre ++ [y])).
    rewrite <- !app_assoc, length_app in IH. simpl in IH.
    replace (Z.of_nat (length pre + 1)) with (Z.of_nat (length pre) + 1) in IH by lia.
    simpl. rewrite (onlyUnique_here pre (rest ++ [x]) y), (onlyUnique_here pre rest y).
    rewrite IH. by destruct (bool_decide (y ∉ pre)).
Qed.

Lemma array_filter_onlyUnique_snoc self x :
  array_filter onlyUnique (self ++ [x]) =
  array_filter onlyUnique self ++ (if bool_decide (x ∈ self) then [] else [x]).
Proof. apply (filter_onlyUnique_snoc [] self x). Qed.

Lemma filter_onlyUnique_id pre rest :
  NoDup (pre ++ rest) ->
  filter_from onlyUnique (pre ++ rest) (Z.of_nat (length pre)) rest = rest.
Proof.
  revert pre. induction rest as [|y rest IH]; intros pre Hnd; [done|].
  simpl. rewrite onlyUnique_here.
  assert (y ∉ pre) as Hy.
  { apply NoDup_app in Hnd as (_ & Hdisj & _). intros Hin.
    apply (Hdisj y Hin), list_elem_of_here. }
  rewrite bool_decide_eq_true_2 by done. f_equal.
  specialize (IH (pre ++ [y])).
  rewrite <- !app_assoc, length_app in IH. simpl in IH.
  replace (Z.of_nat (length pre + 1)) with (Z.of_nat (length pre) + 1) in IH by lia.
  by apply IH.
Qed.

Lemma array_filter_onlyUnique_id self :
  NoDup self -> array_filter onlyUnique self = self.
Proof. apply (filter_onlyUnique_id [] self). Qed.

(** X1. [filter(onlyUnique)] keeps each value of an array at its first
    occurrence and drops the later ones: no value occurs twice in the
    result, the result has the values of the array, in the order of the
    array, appending a value adds it exactly when it is new, and
    filtering again changes nothing. *)
Theorem onlyUnique_keeps_first_occurrences self :
  NoDup (array_filter onlyUnique self) /\
  (forall x, x ∈ array_filter onlyUnique self <-> x ∈ self) /\
  array_filter onlyUnique self `sublist_of` self /\
  (forall x, array_filter onlyUnique (self ++ [x]) =
             array_filter onlyUnique self ++ (if bool_decide (x ∈ self) then [] else [x])) /\
  array_filter onlyUnique (array_filter onlyUnique self) = array_filter onlyUnique self.
Proof.
  split; [apply array_filter_onlyUnique_NoDup|].
  split; [intros x; apply array_filter_onlyUnique_elem|].
  split; [apply filter_from_sublist|].
  split; [intros x; apply array_filter_onlyUnique_snoc|].
  apply array_filter_onlyUnique_id, array_filter_onlyUnique_NoDup.
Qed.

(** What [tags.forEach] of [add] leaves in the buffer. *)
Lemma forEach_pushTag_spec newTags buffer :
  foldl pushTag buffer newTags =
  buffer ++ filter (fun x => x ∉ buffer) (array_filter onlyUnique newTags).
Proof.
  induction newTags as [|x newTags IH] using rev_ind.
  - simpl. by rewrite app_nil_r.
  - rewrite foldl_app. simpl. rewrite IH, array_filter_onlyUnique_snoc, filter_app.
    unfold pushTag.
    destruct (includes _ x) eqn:Hin; simpl.
    + apply includes_true in Hin.
      rewrite elem_of_app, list_elem_of_filter, array_filter_onlyUnique_elem in Hin.
      case_bool_decide as Hx; [by rewrite filter_nil, app_nil_r|].
      rewrite filter_cons_False, filter_nil, app_nil_r; [done|].
      intros Hnb. destruct Hin as [?|[_ ?]]; done.
    + apply includes_false in Hin.
      rewrite elem_of_app, list_elem_of_filter, array_filter_onlyUnique_elem in Hin.
      assert (x ∉ buffer) as Hb by tauto.
      assert (x ∉ newTags) as Hn by tauto.
      rewrite bool_decide_eq_false_2 by done.
      rewrite filter_cons_True, filter_nil by done. by rewrite app_assoc.
Qed.

Lemma forEach_pushTag_pending newTags buffer :
  (forall x, x ∈ newTags -> x ∈ buffer) -> foldl pushTag buffer newTags = buffer.
Proof.
  revert buffer. induction newTags as [|x newTags IH]; intros buffer Hin; [done|].
  simpl. unfold pushTag at 2.
  assert (includes buffer x = true) as ->.
  { apply includes_true, Hin, list_elem_of_here. }
  simpl. apply IH. intros y Hy. by apply Hin, list_elem_of_further.
Qed.

(** X2. [add] keeps the pending tags where they are and appends the new
    tags that are not pending yet, each once, in the order in which they
    first occur in its argument. *)
Theorem add_appends_new_tags newTags w :
  tags (invalidator (add newTags w)) =
  tags (invalidator w) ++
  filter (fun x => x ∉ tags (invalidator w)) (array_filter onlyUnique newTags).
Proof. rewrite add_tags. apply forEach_pushTag_spec. Qed.

(** X3. Adding, after an [add], tags that this [add] was given already
    changes nothing at all: neither the buffer, nor the timer, nor its
    due time. *)
Theorem add_again_changes_nothing newTags again w :
  (forall x, x ∈ again -> x ∈ newTags) ->
  add again (add newTags w) = add newTags w.
Proof.
  intros Hsub.
  assert (forall x, x ∈ again -> x ∈ tags (invalidator (add newTags w))) as Hpending.
  { intros x Hx. rewrite add_tags, forEach_pushTag_elem. right. by apply Hsub. }
  assert (exists h, timeout (invalidator (add newTags w)) = Some h) as [h Hto].
  { destruct (timeout (invalidator w)) as [h|] eqn:Hw.
    - exists h. by apply add_armed.
    - eexists. by apply add_idle. }
  revert Hpending Hto. generalize (add newTags w) as w1.
  intros [[tg dl to ctx] q n nh rs] Hpending Hto. simpl in *. subst to.
  unfold add. simpl. by rewrite (forEach_pushTag_pending again tg Hpending).
Qed.

(** Two requests in a row: the second one asks for less. *)
Lemma add_again_changes_nothing_witness :
  (forall x, x ∈ ["b"; "a"; "b"] -> x ∈ ["a"; "b"; "c"]) /\
  add ["b"; "a"; "b"] (add ["a"; "b"; "c"] boot) = add ["a"; "b"; "c"] boot.
Proof.
  assert (forall x, x ∈ ["b"; "a"; "b"] -> x ∈ ["a"; "b"; "c"]) as Hsub.
  { intros x Hx. apply list_elem_of_In in Hx. apply list_elem_of_In.
    simpl in *. tauto. }
  split; [exact Hsub|].
  exact (add_again_changes_nothing ["a"; "b"; "c"] ["b"; "a"; "b"] boot Hsub).
Defined.

(** ** The delay of the first window *)

Lemma orElse_cases a b :
  (a = None \/ a = Some 0 -> orElse a b = b) /\
  (forall n, a = Some n -> n <> 0 -> orElse a b = n).
Proof.
  split.
  - by intros [->| ->].
  - intros n -> Hn. simpl. by rewrite (proj2 (Z.eqb_neq n 0) Hn).
Qed.

(** X15. The delay of the first window.  The value chosen for [delay] is
    the configured one, or the default when none or zero is configured.
    When nothing interrupts the first request, it arms the timer with the
    chosen delay (one millisecond if that lies outside [1 .. 2^31 - 1]).
    When another request comes in while the first one, which has found
    the context, waits for the module config, that request finds the
    context set and skips the initialisation: it arms the timer while
    [delay] is still unset, so the timer is due one millisecond later,
    and the first request then sets the delay but leaves the timer as it
    is. *)
Theorem first_window_delay cfg first other tags1 tags2 gap :
  authFailure first = None -> body first = BArray tags1 ->
  authFailure other = None -> body other = BArray tags2 ->
  multiCacheContext first <> None ->
  let chosen := orElse (cacheTagInvalidationDelay cfg)
                  (DEFAULT_CACHE_TAG_INVALIDATION_DELAY cfg) in
  let alone := run cfg [EvRequest first] boot in
  let raced := run cfg [EvSuspend first; EvElapse gap; EvRequest other; EvResume tags1]
                 boot in
  (cacheTagInvalidationDelay cfg = None \/ cacheTagInvalidationDelay cfg = Some 0 ->
   chosen = DEFAULT_CACHE_TAG_INVALIDATION_DELAY cfg) /\
  (forall n, cacheTagInvalidationDelay cfg = Some n -> n <> 0 -> chosen = n) /\
  delay (invalidator alone) = Some chosen /\
  timers alone = [{| handle := 1; due := timerDelay (Some chosen) |}] /\
  delay (invalidator raced) = Some chosen /\
  timers raced = [{| handle := 1; due := Z.of_N gap + 1 |}] /\
  cacheContext (invalidator raced) = multiCacheContext first.
Proof.
  intros Hauth1 Hbody1 Hauth2 Hbody2 Hctx chosen alone raced.
  destruct (orElse_cases (cacheTagInvalidationDelay cfg)
              (DEFAULT_CACHE_TAG_INVALIDATION_DELAY cfg)) as [Hdefault Hset].
  split; [done|]. split; [done|].
  assert (alone = add tags1 (establish cfg first boot)) as ->.
  { unfold alone, run. simpl. rewrite handler_unfold. unfold getTagsToPurge.
    by rewrite Hauth1, Hbody1. }
  split; [done|]. split; [done|].
  destruct (multiCacheContext first) as [ctx|] eqn:Hfirst; [|done].
  assert (suspend first boot = setContext (Some ctx) boot) as Hsuspend.
  { unfold suspend, beginRequest, getTagsToPurge. by rewrite Hauth1, Hbody1, Hfirst. }
  assert (raced =
          add tags1 (setDelay chosen
            (add tags2 (elapse gap (setContext (Some ctx) boot))))) as ->.
  { unfold raced, run. simpl. rewrite Hsuspend, handler_unfold. unfold getTagsToPurge.
    rewrite Hauth2, Hbody2. done. }
  done.
Qed.

(** A delay of zero is configured, and a second request comes in five
    milliseconds after the first one began. *)
Lemma first_window_delay_witness :
  let first := purgeRequest ["a"] (Some dataContext) in
  let other := purgeRequest ["b"] (Some flakyContext) in
  let alone := run zeroDelaySettings [EvRequest first] boot in
  let raced := run zeroDelaySettings
                 [EvSuspend first; EvElapse 5; EvRequest other; EvResume ["a"]] boot in
  delay (invalidator alone) = Some 60000 /\
  timers alone = [{| handle := 1; due := 60000 |}] /\
  delay (invalidator raced) = Some 60000 /\
  timers raced = [{| handle := 1; due := 6 |}] /\
  cacheContext (invalidator raced) = Some dataContext.
Proof.
  intros first other alone raced.
  destruct (first_window_delay zeroDelaySettings first other ["a"] ["b"] 5
              eq_refl eq_refl eq_refl eq_refl)
    as (_ & _ & Hd & Hq & Hd' & Hq' & Hc').
  - discriminate.
  - split; [exact Hd|]. split; [exact Hq|]. split; [exact Hd'|]. split; [exact Hq'|].
    exact Hc'.
Defined.

(** ** Expiry *)

Lemma filter_absent_nil (l : list string) : filter (fun x => x ∉ []) l = l.
Proof.
  induction l as [|x l IH]; [done|].
  rewrite filter_cons_True by apply not_elem_of_nil. by rewrite IH.
Qed.

(** X11. When the context is set, an expiry empties the buffer and clears
    the handle before the sweep begins, so this holds however the sweep
    ends, also when it is rejected half way: the tags of that sweep are
    not kept for another attempt, and the next [add] starts a window of
    its own with just its tags. *)
Theorem expiry_with_context_resets t w ctx newTags :
  cacheContext (invalidator w) = Some ctx ->
  tags (invalidator (fire t w)) = [] /\
  timeout (invalidator (fire t w)) = None /\
  delay (invalidator (fire t w)) = delay (invalidator w) /\
  tags (invalidator (add newTags (fire t w))) = array_filter onlyUnique newTags /\
  timers (add newTags (fire t w)) =
    enqueue {| handle := nextHandle w;
               due := Z.max (now w) (due t) + timerDelay (delay (invalidator w)) |}
            (timers w).
Proof.
  intros Hctx.
  assert (tags (invalidator (fire t w)) = [] /\
          timeout (invalidator (fire t w)) = None /\
          delay (invalidator (fire t w)) = delay (invalidator w)) as (Htags & Hto & Hdelay).
  { by rewrite fire_invalidator, (invalidate_set _ _ Hctx). }
  split; [done|]. split; [done|]. split; [done|]. split.
  - rewrite add_tags, forEach_pushTag_spec, Htags. simpl.
    apply filter_absent_nil.
  - destruct (add_idle newTags _ Hto) as [_ ->]. rewrite Hdelay.
    by rewrite fire_unfold.
Qed.

(** The expiry whose sweep is rejected at [k1]. *)
Lemma expiry_with_context_resets_witness :
  let w := {| invalidator := flakyInvalidator;
              timers := []; now := 1500; nextHandle := 2; runs := [] |} in
  let t := {| handle := 1; due := 2000 |} in
  (settled <$> runs (fire t w)) = [Rejected (GetItem "data" "k1")] /\
  tags (invalidator (fire t w)) = [] /\
  timeout (invalidator (fire t w)) = None /\
  delay (invalidator (fire t w)) = Some 2000 /\
  tags (invalidator (add ["t1"; "t5"; "t1"] (fire t w))) = ["t1"; "t5"] /\
  timers (add ["t1"; "t5"; "t1"] (fire t w)) = [{| handle := 2; due := 4000 |}].
Proof.
  intros w t. split; [vm_compute; reflexivity|].
  exact (expiry_with_context_resets t w flakyContext ["t1"; "t5"; "t1"] eq_refl).
Defined.

(** ** Sweeps that do little *)

Lemma countOps_app p ops1 ops2 :
  countOps p (ops1 ++ ops2) = (countOps p ops1 + countOps p ops2)%nat.
Proof. unfold countOps. by rewrite List.filter_app, length_app. Qed.

Lemma countOps_cons p op ops :
  countOps p (op :: ops) = ((if p op then 1 else 0) + countOps p ops)%nat.
Proof. unfold countOps. simpl. by destruct (p op). Qed.

Lemma shouldPurge_nil item : shouldPurge [] item = false.
Proof.
  destruct item as [[raw|[its|]]|]; try done. simpl.
  induction its as [|t its IH]; [done|]. simpl. by rewrite IH.
Qed.

Lemma sweepKeys_nil c ks st :
  exists ops r, sweepKeys [] c ks st = (st, ops, r) /\ countOps isRemoveItem ops = 0%nat.
Proof.
  induction ks as [|k ks IH]; [by eexists _, _|].
  rewrite sweepKeys_cons, sweepKey_unfold, shouldPurge_nil.
  case_bool_decide; [by eexists _, _|].
  destruct IH as (ops & r & -> & Hops). eexists _, _. split; [done|]. done.
Qed.

Lemma sweepContext_nil ctx :
  exists ops r, sweepContext [] ctx = (ctx, ops, r) /\ countOps isRemoveItem ops = 0%nat.
Proof.
  induction ctx as [|[c [st|]] ctx IH]; simpl.
  - by eexists _, _.
  - rewrite sweepCache_unfold. destruct (getKeysRejects st); [by eexists _, _|].
    destruct (sweepKeys_nil c (map_to_list (items st)).*1 st) as (ops1 & r1 & -> & Hops1).
    destruct r1 as [u|e]; [|by eexists _, _].
    destruct IH as (ops2 & r2 & -> & Hops2). eexists _, _. split; [done|].
    rewrite countOps_app, countOps_cons, Hops1, Hops2. done.
  - destruct IH as (ops2 & r2 & -> & Hops2). by eexists _, _.
Qed.

Lemma sweepContext_nil_reliable ctx :
  reliableContext ctx ->
  sweepContext [] ctx = (ctx, flat_map scanOps ctx, Fulfilled tt).
Proof.
  induction 1 as [|[c [st|]] ctx Hst _ IH]; simpl; [done| |by rewrite IH].
  destruct Hst as (Hk & Hr & Hd).
  rewrite sweepCache_unfold, Hk, sweepKeys_idle.
  - by rewrite IH.
  - intros k _. rewrite Hr, shouldPurge_nil. split; [set_solver|done].
Qed.

(** X6. An expiry with an empty buffer (the one that [add] with no tags
    schedules) still runs the sweep, but no item is removed: every
    backend is left exactly as it was, whether or not some operation
    rejects on the way.  When nothing rejects, the sweep enumerates every
    enabled backend and reads each of its items, in the order of the
    context, and is fulfilled. *)
Theorem sweep_for_no_tags this ctx :
  cacheContext this = Some ctx ->
  tags this = [] ->
  exists ops r,
    invalidate this =
      ({| tags := []; delay := delay this; timeout := None; cacheContext := Some ctx |},
       (Some [], ops, r)) /\
    countOps isRemoveItem ops = 0%nat /\
    (reliableContext ctx -> ops = flat_map scanOps ctx /\ r = Fulfilled tt).
Proof.
  intros Hctx Htags. rewrite (invalidate_set _ _ Hctx), Htags.
  change (array_filter onlyUnique []) with (@nil string).
  destruct (sweepContext_nil ctx) as (ops & r & Hsweep & Hops). rewrite Hsweep.
  exists ops, r. split; [done|]. split; [done|].
  intros Hrel. rewrite (sweepContext_nil_reliable ctx Hrel) in Hsweep.
  by injection Hsweep as <- <-.
Qed.

(** The timer armed by [add] with no tags expires over the sample
    context. *)
Lemma sweep_for_no_tags_witness :
  let this := {| tags := []; delay := Some 2000; timeout := Some 1%nat;
                 cacheContext := Some dataContext |} in
  invalidate this =
    ({| tags := []; delay := Some 2000; timeout := None;
        cacheContext := Some dataContext |},
     (Some [],
      [GetKeys "data"; GetItem "data" "k1"; GetItem "data" "k2"],
      Fulfilled tt)).
Proof.
  intros this.
  destruct (sweep_for_no_tags this dataContext eq_refl eq_refl)
    as (ops & r & Hrun & _ & Hscan).
  destruct Hscan as [-> ->]; [repeat constructor|]. exact Hrun.
Defined.

(** ** What a sweep costs *)

Lemma lookup_size_pos (m : gmap string Item) k :
  is_Some (m !! k) -> (0 < size m)%nat.
Proof.
  intros [v Hv]. destruct (size m) eqn:Hsize; [|lia].
  apply map_size_empty_inv in Hsize. subst m. by rewrite lookup_empty in Hv.
Qed.

Lemma shouldPurge_is_Some tags item : shouldPurge tags item = true -> is_Some item.
Proof. destruct item; [by eexists|done]. Qed.

Lemma sweepKeys_cost tags c ks st :
  getItemRejects st = ∅ -> removeItemRejects st = ∅ ->
  exists st' ops,
    sweepKeys tags c ks st = (st', ops, Fulfilled tt) /\
    countOps isGetItem ops = length ks /\
    (countOps isRemoveItem ops + size (items st') = size (items st))%nat.
Proof.
  revert st. induction ks as [|k ks IH]; intros st Hr Hd; [by eexists _, _|].
  rewrite sweepKeys_cons, sweepKey_unfold, Hr, Hd.
  rewrite !bool_decide_eq_false_2 by set_solver.
  destruct (shouldPurge tags (items st !! k)) eqn:Hp.
  - edestruct (IH (mkStorage (delete k (items st)) (getKeysRejects st) ∅ ∅))
      as (st' & ops & -> & Hreads & Hsize); [done..|].
    eexists _, _. split; [done|]. simpl in *.
    rewrite !countOps_cons, Hreads. simpl. split; [done|].
    apply shouldPurge_is_Some in Hp.
    pose proof (lookup_size_pos _ _ Hp).
    rewrite map_size_delete_Some in Hsize by done. unfold countOps in *. lia.
  - edestruct (IH st) as (st' & ops & -> & Hreads & Hsize); [done..|].
    eexists _, _. split; [done|]. simpl.
    rewrite !countOps_cons, Hreads. simpl. split; [done|]. unfold countOps in *. lia.
Qed.

Lemma sweepCache_cost tags c st :
  reliable st ->
  exists st' ops,
    sweepCache tags c st = (st', ops, Fulfilled tt) /\
    countOps isGetItem ops = size (items st) /\
    (countOps isRemoveItem ops + size (items st') = size (items st))%nat.
Proof.
  intros (Hk & Hr & Hd). rewrite sweepCache_unfold, Hk.
  destruct (sweepKeys_cost tags c (map_to_list (items st)).*1 st Hr Hd)
    as (st' & ops & -> & Hreads & Hsize).
  eexists _, _. split; [done|].
  rewrite !countOps_cons, Hreads, length_fmap, length_map_to_list. simpl.
  split; [done|]. unfold countOps in *. lia.
Qed.

(** X7. What a sweep costs when no operation rejects: every item of every
    enabled backend is read once, whatever the tags are, and there are as
    many removals as there are items fewer afterwards. *)
Theorem sweep_reads_every_item tags ctx :
  reliableContext ctx ->
  exists ctx' ops,
    sweepContext tags ctx = (ctx', ops, Fulfilled tt) /\
    countOps isGetItem ops = totalItems ctx /\
    (countOps isRemoveItem ops + totalItems ctx' = totalItems ctx)%nat.
Proof.
  induction 1 as [|[c [st|]] ctx Hst _ IH]; simpl.
  - by eexists _, _.
  - destruct (sweepCache_cost tags c st Hst) as (st' & ops1 & -> & Hreads1 & Hsize1).
    destruct IH as (ctx' & ops2 & -> & Hreads2 & Hsize2).
    eexists _, _. split; [done|]. rewrite !countOps_app. unfold totalItems in *.
    simpl. unfold countOps in *. lia.
  - destruct IH as (ctx' & ops2 & -> & Hreads2 & Hsize2).
    eexists _, _. split; [done|]. unfold totalItems in *. simpl. lia.
Qed.

(** The sample context: two items, one of them tagged [t1]. *)
Lemma sweep_reads_every_item_witness :
  reliableContext dataContext /\
  exists ctx' ops,
    sweepContext ["t1"] dataContext = (ctx', ops, Fulfilled tt) /\
    countOps isGetItem ops = totalItems dataContext /\
    (countOps isRemoveItem ops + totalItems ctx' = totalItems dataContext)%nat.
Proof.
  assert (reliableContext dataContext) as Hrel by repeat constructor.
  split; [exact Hrel|]. exact (sweep_reads_every_item ["t1"] dataContext Hrel).
Defined.

(** ** A rejected enumeration *)

(** X10. When the enumeration of the keys of backend [c] rejects, the
    sweep ends there: the backends before [c] were swept, [c] and the
    backends after it are untouched and none of their items is read, and
    the promise of [invalidate] rejects with that failure. *)
Theorem sweep_ends_at_rejected_enumeration this pre c st post pre' opsPre :
  cacheContext this = Some (pre ++ (c, Some st) :: post) ->
  sweepContext (array_filter onlyUnique (tags this)) pre = (pre', opsPre, Fulfilled tt) ->
  getKeysRejects st = true ->
  invalidate this =
    ({| tags := []; delay := delay this; timeout := None;
        cacheContext := Some (pre' ++ (c, Some st) :: post) |},
     (Some (array_filter onlyUnique (tags this)),
      opsPre ++ [GetKeys c],
      Rejected (GetKeys c))).
Proof.
  intros Hctx Hpre Hkeys.
  rewrite (invalidate_set _ _ Hctx), sweepContext_app, Hpre. simpl.
  by rewrite sweepCache_unfold, Hkeys.
Qed.

(** The second of three backends cannot enumerate its keys. *)
Lemma sweep_ends_at_rejected_enumeration_witness :
  let this := {| tags := ["t1"]; delay := Some 2000; timeout := Some 1%nat;
                 cacheContext := Some brokenContext |} in
  exists pre' opsPre,
    invalidate this =
      ({| tags := []; delay := Some 2000; timeout := None;
          cacheContext :=
            Some (pre' ++ ("data", Some brokenStore) :: [("route", Some routeStore)]) |},
       (Some ["t1"], opsPre ++ [GetKeys "data"], Rejected (GetKeys "data"))).
Proof.
  intros this. eexists _, _.
  refine (sweep_ends_at_rejected_enumeration this
            [("component", Some componentStore)] "data" brokenStore
            [("route", Some routeStore)] _ _ _ _ _).
  - reflexivity.
  - vm_compute. reflexivity.
  - reflexivity.
Defined.

(** ** The tags as a set *)

Lemma shouldPurge_ext tags1 tags2 item :
  (forall x, x ∈ tags1 <-> x ∈ tags2) ->
  shouldPurge tags1 item = shouldPurge tags2 item.
Proof.
  intros Hsame.
  assert (intersects tags1 item <-> intersects tags2 item) as Hi.
  { unfold intersects. split; intros (its & t & ? & ? & ?); exists its, t;
      (split; [done|split; [done|by apply Hsame]]). }
  rewrite <- !shouldPurge_intersects in Hi.
  destruct (shouldPurge tags1 item), (shouldPurge tags2 item); try done.
  - symmetry. by apply Hi.
  - by apply Hi.
Qed.

Lemma sweepKeys_ext tags1 tags2 c ks st :
  (forall item, shouldPurge tags1 item = shouldPurge tags2 item) ->
  sweepKeys tags1 c ks st = sweepKeys tags2 c ks st.
Proof.
  intros Hsame. revert st. induction ks as [|k ks IH]; intros st; [done|].
  rewrite !sweepKeys_cons, !sweepKey_unfold, Hsame.
  case_bool_decide; [done|].
  destruct (shouldPurge tags2 (items st !! k)); [|by rewrite IH].
  case_bool_decide; [done|]. by rewrite IH.
Qed.

Lemma sweepContext_ext tags1 tags2 ctx :
  (forall item, shouldPurge tags1 item = shouldPurge tags2 item) ->
  sweepContext tags1 ctx = sweepContext tags2 ctx.
Proof.
  intros Hsame. induction ctx as [|[c [st|]] ctx IH]; simpl; [done| |by rewrite IH].
  rewrite !sweepCache_unfold, (sweepKeys_ext tags1 tags2) by done. by rewrite IH.
Qed.

(** X9. A sweep depends on its tag list only as a set: two lists with the
    same members, in any order and with any repetitions, make the sweep
    perform the same operations and end in the same state with the same
    outcome. *)
Theorem sweep_depends_on_tag_set tags1 tags2 ctx :
  (forall x, x ∈ tags1 <-> x ∈ tags2) ->
  sweepContext tags1 ctx = sweepContext tags2 ctx.
Proof.
  intros Hsame. apply sweepContext_ext. intros item. by apply shouldPurge_ext.
Qed.

(** A list with a repetition and its reversal without it. *)
Lemma sweep_depends_on_tag_set_witness :
  (forall x, x ∈ ["t3"; "t1"; "t3"] <-> x ∈ ["t1"; "t3"]) /\
  sweepContext ["t3"; "t1"; "t3"] flakyContext = sweepContext ["t1"; "t3"] flakyContext.
Proof.
  assert (forall x, x ∈ ["t3"; "t1"; "t3"] <-> x ∈ ["t1"; "t3"]) as Hsame.
  { intros x. rewrite !list_elem_of_In. simpl. tauto. }
  split; [exact Hsame|].
  exact (sweep_depends_on_tag_set ["t3"; "t1"; "t3"] ["t1"; "t3"] flakyContext Hsame).
Defined.

(** ** Coalescing *)

Lemma includes_app tags1 tags2 v :
  includes (tags1 ++ tags2) v = includes tags1 v || includes tags2 v.
Proof.
  unfold includes. rewrite <- bool_decide_or. apply bool_decide_ext, elem_of_app.
Qed.

Lemma shouldPurge_app tags1 tags2 item :
  shouldPurge (tags1 ++ tags2) item = shouldPurge tags1 item || shouldPurge tags2 item.
Proof.
  destruct item as [[raw|[its|]]|]; try done. simpl. unfold some.
  induction its as [|t its IH]; [done|]. simpl. rewrite IH, includes_app.
  destruct (includes tags1 t), (includes tags2 t), (existsb _ its), (existsb _ its); done.
Qed.

Lemma storage_ext st st' :
  sameFaults st st' -> (forall k, items st' !! k = items st !! k) -> st' = st.
Proof.
  destruct st, st'. intros (? & ? & ?) Hitems. simpl in *. subst. f_equal.
  by apply map_eq.
Qed.

Lemma sameFaults_reliable st st' : sameFaults st st' -> reliable st -> reliable st'.
Proof. intros (Hk & Hr & Hd) (? & ? & ?). unfold reliable. by rewrite Hk, Hr, Hd. Qed.

Lemma sweepCache_coalesce tags1 tags2 c st :
  reliable st ->
  exists st1 ops1 st2 ops2 ops12,
    sweepCache tags1 c st = (st1, ops1, Fulfilled tt) /\
    sweepCache tags2 c st1 = (st2, ops2, Fulfilled tt) /\
    sweepCache (tags1 ++ tags2) c st = (st2, ops12, Fulfilled tt).
Proof.
  intros Hrel.
  destruct (sweepCache_reliable tags1 c st Hrel) as (st1 & ops1 & H1).
  pose proof (sweepCache_fulfilled _ _ _ _ _ _ H1) as (Hf1 & _ & _ & Hitems1).
  pose proof (sameFaults_reliable _ _ Hf1 Hrel) as Hrel1.
  destruct (sweepCache_reliable tags2 c st1 Hrel1) as (st2 & ops2 & H2).
  pose proof (sweepCache_fulfilled _ _ _ _ _ _ H2) as (Hf2 & _ & _ & Hitems2).
  destruct (sweepCache_reliable (tags1 ++ tags2) c st Hrel) as (st12 & ops12 & H12).
  pose proof (sweepCache_fulfilled _ _ _ _ _ _ H12) as (Hf12 & _ & _ & Hitems12).
  assert (st12 = st2) as ->.
  { apply storage_ext.
    - destruct Hf1 as (? & ? & ?), Hf2 as (? & ? & ?), Hf12 as (? & ? & ?).
      unfold sameFaults. split; [congruence|split; congruence].
    - intros k. rewrite Hitems12, Hitems2, Hitems1, shouldPurge_app.
      destruct (shouldPurge tags1 (items st !! k)); simpl; [done|].
      by destruct (shouldPurge tags2 (items st !! k)). }
  by exists st1, ops1, st2, ops2, ops12.
Qed.

(** X8. Coalescing does not change what is evicted: with backends whose
    operations succeed, one sweep for the tags of two windows taken
    together leaves every backend in the state that a sweep for the first
    tags followed by a sweep for the second tags leaves it in. *)
Theorem merged_sweep_equals_successive_sweeps tags1 tags2 ctx :
  reliableContext ctx ->
  exists ctx1 ops1 ctx2 ops2 ops12,
    sweepContext tags1 ctx = (ctx1, ops1, Fulfilled tt) /\
    sweepContext tags2 ctx1 = (ctx2, ops2, Fulfilled tt) /\
    sweepContext (tags1 ++ tags2) ctx = (ctx2, ops12, Fulfilled tt).
Proof.
  induction 1 as [|[c [st|]] ctx Hst _ IH]; simpl.
  - by eexists _, _, _, _, _.
  - destruct (sweepCache_coalesce tags1 tags2 c st Hst)
      as (st1 & o1 & st2 & o2 & o12 & -> & Hc2 & ->).
    destruct IH as (ctx1 & ops1 & ctx2 & ops2 & ops12 & -> & Hr2 & ->).
    eexists _, _, _, _, _. split; [done|]. simpl. rewrite Hc2, Hr2. by split.
  - destruct IH as (ctx1 & ops1 & ctx2 & ops2 & ops12 & -> & Hr2 & ->).
    eexists _, _, _, _, _. split; [done|]. simpl. rewrite Hr2. by split.
Qed.

(** The sample context, swept for [t3] and [t1] at once or in turn. *)
Lemma merged_sweep_equals_successive_sweeps_witness :
  reliableContext dataContext /\
  exists ctx1 ops1 ctx2 ops2 ops12,
    sweepContext ["t3"] dataContext = (ctx1, ops1, Fulfilled tt) /\
    sweepContext ["t1"] ctx1 = (ctx2, ops2, Fulfilled tt) /\
    sweepContext (["t3"] ++ ["t1"]) dataContext = (ctx2, ops12, Fulfilled tt).
Proof.
  assert (reliableContext dataContext) as Hrel by repeat constructor.
  split; [exact Hrel|].
  exact (merged_sweep_equals_successive_sweeps ["t3"] ["t1"] dataContext Hrel).
Defined.

(** ** The context, once established *)

Lemma sameFaults_refl st : sameFaults st st.
Proof. done. Qed.

Lemma sameFaults_trans st1 st2 st3 :
  sameFaults st1 st2 -> sameFaults st2 st3 -> sameFaults st1 st3.
Proof.
  intros (? & ? & ?) (? & ? & ?). unfold sameFaults. split; [congruence|split; congruence].
Qed.

Lemma sweepKeys_sameFaults tags c ks st :
  sameFaults st (sweepKeys tags c ks st).1.1.
Proof.
  revert st. induction ks as [|k ks IH]; intros st; [done|].
  rewrite sweepKeys_cons, sweepKey_unfold.
  case_bool_decide; [done|].
  destruct (shouldPurge tags (items st !! k)).
  - case_bool_decide; [done|].
    pose proof (IH (mkStorage (delete k (items st)) (getKeysRejects st)
                      (getItemRejects st) (removeItemRejects st))) as Hrest.
    by destruct (sweepKeys tags c ks _) as [[st2 ops2] r].
  - pose proof (IH st) as Hrest.
    by destruct (sweepKeys tags c ks st) as [[st2 ops2] r].
Qed.

Lemma shrunk_refl st : shrunk st st.
Proof. done. Qed.

Lemma shrunk_trans st1 st2 st3 : shrunk st1 st2 -> shrunk st2 st3 -> shrunk st1 st3.
Proof.
  intros [Hi12 Hf12] [Hi23 Hf23]. split; [by etrans|by eapply sameFaults_trans].
Qed.

Lemma sweepCache_shrunk tags c st : shrunk st (sweepCache tags c st).1.1.
Proof.
  split.
  - apply map_subseteq_spec. intros k v Hv.
    destruct (sweepCache_within tags c st k) as [Heq|[Hnone _]]; congruence.
  - rewrite sweepCache_unfold. destruct (getKeysRejects st); [done|].
    pose proof (sweepKeys_sameFaults tags c (map_to_list (items st)).*1 st) as Hf.
    by destruct (sweepKeys _ _ _ _) as [[st' ops] r].
Qed.

Lemma sweepContext_shrunk tags ctx :
  Forall2 (onEntries shrunk) ctx (sweepContext tags ctx).1.1.
Proof.
  induction ctx as [|[c [st|]] ctx IH]; simpl.
  - constructor.
  - pose proof (sweepCache_shrunk tags c st) as Hc.
    destruct (sweepCache tags c st) as [[st1 ops1] [u1|e]].
    + destruct (sweepContext tags ctx) as [[rest' ops2] r].
      constructor; [by split|done].
    + constructor; [by split|]. apply onEntries_refl, shrunk_refl.
  - destruct (sweepContext tags ctx) as [[rest' ops2] r].
    constructor; [by split|done].
Qed.

Lemma onEntries_shrunk_trans ctx1 ctx2 ctx3 :
  Forall2 (onEntries shrunk) ctx1 ctx2 -> Forall2 (onEntries shrunk) ctx2 ctx3 ->
  Forall2 (onEntries shrunk) ctx1 ctx3.
Proof.
  apply Forall2_trans.
  intros [c1 o1] [c2 o2] [c3 o3] [Hn12 H12] [Hn23 H23]. simpl in *.
  split; [simpl; congruence|]. simpl.
  destruct o1, o2, o3; try done. by eapply shrunk_trans.
Qed.

Lemma invalidate_keeps_context this ctx :
  cacheContext this = Some ctx ->
  exists ctx', cacheContext (invalidate this).1 = Some ctx' /\
               Forall2 (onEntries shrunk) ctx ctx' /\
               delay (invalidate this).1 = delay this.
Proof.
  intros Hctx. rewrite (invalidate_set _ _ Hctx). simpl.
  eexists. split; [done|]. split; [apply sweepContext_shrunk|done].
Qed.

Lemma runTimers_keeps_context deadline queue w ctx :
  cacheContext (invalidator w) = Some ctx ->
  exists ctx', cacheContext (invalidator (runTimers deadline queue w)) = Some ctx' /\
               Forall2 (onEntries shrunk) ctx ctx' /\
               delay (invalidator (runTimers deadline queue w)) = delay (invalidator w).
Proof.
  revert w ctx. induction queue as [|t queue IH]; intros w ctx Hctx.
  - exists ctx. split; [done|]. split; [apply onEntries_refl, shrunk_refl|done].
  - simpl. destruct (due t <=? deadline).
    + destruct (invalidate_keeps_context _ _ Hctx) as (ctx1 & Hctx1 & Hsh1 & Hd1).
      rewrite <- fire_invalidator with (t := t) in Hctx1, Hd1.
      destruct (IH (fire t w) ctx1 Hctx1) as (ctx2 & Hctx2 & Hsh2 & Hd2).
      exists ctx2. split; [done|]. split; [by eapply onEntries_shrunk_trans|congruence].
    + exists ctx. split; [done|]. split; [apply onEntries_refl, shrunk_refl|done].
Qed.

Lemma step_keeps_context cfg w e ctx :
  cacheContext (invalidator w) = Some ctx ->
  exists ctx', cacheContext (invalidator (step cfg w e)) = Some ctx' /\
               Forall2 (onEntries shrunk) ctx ctx'.
Proof.
  intros Hctx. destruct e as [event|event|resumed|newTags|ms]; cbn [step].
  - assert (cacheContext (invalidator (handler cfg event w).1) = Some ctx) as Hc.
    { destruct (handler_cases cfg event w) as [(e & -> & _)|(l & -> & _)]; cbn [fst];
        [done|].
      destruct (add_frame l (establish cfg event w)) as (-> & _).
      unfold establish. by rewrite Hctx. }
    exists ctx. split; [done|]. apply onEntries_refl, shrunk_refl.
  - rewrite (suspend_established event w ctx Hctx).
    exists ctx. split; [done|]. apply onEntries_refl, shrunk_refl.
  - rewrite resume_step.
    destruct (add_frame resumed (setDelay (orElse (cacheTagInvalidationDelay cfg)
                (DEFAULT_CACHE_TAG_INVALIDATION_DELAY cfg)) w)) as (-> & _).
    exists ctx. split; [done|]. apply onEntries_refl, shrunk_refl.
  - exists ctx. destruct (add_frame newTags w) as (-> & _).
    split; [done|]. apply onEntries_refl, shrunk_refl.
  - unfold elapse. simpl.
    destruct (runTimers_keeps_context (now w + Z.of_N ms) (timers w) w ctx Hctx)
      as (ctx' & ? & ? & _).
    by exists ctx'.
Qed.

(** X5. Once the context is established it stays: whatever requests
    (interrupted or not), [add]s and expiries follow, the invalidator
    keeps a context with the same caches, each backend holding part of
    what it held and rejecting what it rejected (the endpoint never adds
    or alters an item); the context found on later events is not looked
    at. *)
Theorem established_context_stays cfg events w ctx :
  cacheContext (invalidator w) = Some ctx ->
  exists ctx',
    cacheContext (invalidator (run cfg events w)) = Some ctx' /\
    Forall2 (onEntries shrunk) ctx ctx'.
Proof.
  revert w ctx. induction events as [|e events IH]; intros w ctx Hctx.
  - exists ctx. split; [done|]. apply onEntries_refl, shrunk_refl.
  - rewrite run_cons.
    destruct (step_keeps_context cfg w e ctx Hctx) as (ctx1 & Hctx1 & Hsh1).
    destruct (IH _ _ Hctx1) as (ctx2 & Hctx2 & Hsh2).
    exists ctx2. split; [done|]. by eapply onEntries_shrunk_trans.
Qed.

(** After the first request: a sweep, then requests whose events carry
    another context, one of them interrupted. *)
Lemma established_context_stays_witness :
  let w := (handler settings (purgeRequest ["t1"] (Some dataContext)) boot).1 in
  let events := [EvElapse 2000; EvSuspend (purgeRequest ["t3"] (Some flakyContext));
                 EvRequest (purgeRequest ["t3"] (Some flakyContext));
                 EvResume ["t3"]; EvElapse 2000] in
  exists ctx',
    cacheContext (invalidator (run settings events w)) = Some ctx' /\
    Forall2 (onEntries shrunk) dataContext ctx'.
Proof.
  intros w events.
  exact (established_context_stays settings events w dataContext eq_refl).
Defined.

(** ** Every tag is accounted for *)

Lemma fire_sweeps t w :
  sweeps (fire t w) =
    sweeps w ++ match cacheContext (invalidator w) with
                | Some _ => [array_filter onlyUnique (tags (invalidator w))]
                | None => []
                end.
Proof.
  unfold sweeps. rewrite fire_runs, omap_app. f_equal.
  destruct (cacheContext (invalidator w)) as [ctx|] eqn:Hctx.
  - by rewrite (invalidate_set _ _ Hctx).
  - by rewrite (invalidate_unset _ Hctx).
Qed.

Lemma fire_held t w x : held (fire t w) x <-> held w x.
Proof.
  unfold held. rewrite fire_sweeps, fire_invalidator.
  destruct (cacheContext (invalidator w)) as [ctx|] eqn:Hctx.
  - rewrite (invalidate_set _ _ Hctx). simpl. split.
    + intros [?%elem_of_nil|(d & Hd & Hx)]; [done|].
      apply elem_of_app in Hd as [Hd|Hd%list_elem_of_singleton].
      * right. by exists d.
      * subst d. left. by apply array_filter_onlyUnique_elem.
    + intros [Hx|(d & Hd & Hx)]; right.
      * eexists. split; [apply elem_of_app; right; apply list_elem_of_here|].
        by apply array_filter_onlyUnique_elem.
      * exists d. split; [|done]. apply elem_of_app. by left.
  - rewrite (invalidate_unset _ Hctx), app_nil_r. done.
Qed.

Lemma runTimers_held deadline queue w x :
  held (runTimers deadline queue w) x <-> held w x.
Proof.
  revert w. induction queue as [|t queue IH]; intros w; [done|].
  simpl. destruct (due t <=? deadline); [|done]. by rewrite IH, fire_held.
Qed.

Lemma add_held newTags w x :
  held (add newTags w) x <-> held w x \/ x ∈ newTags.
Proof.
  unfold held, sweeps. destruct (add_frame newTags w) as (_ & _ & _ & ->).
  rewrite add_tags, forEach_pushTag_elem. tauto.
Qed.

Lemma step_held cfg w e x :
  held (step cfg w e) x <-> held w x \/ x ∈ accepted e.
Proof.
  destruct e as [event|event|resumed|newTags|ms]; cbn [step].
  - destruct (handler_cases cfg event w) as [(e & -> & ->)|(l & -> & -> & _)]; cbn [fst].
    + split; [by left|]. by intros [?|?%elem_of_nil].
    + rewrite add_held. unfold held, sweeps.
      by destruct (establish_frame cfg event w) as (-> & _ & _ & _ & _ & ->).
  - unfold held, sweeps.
    destruct (suspend_frame event w) as (-> & _ & _ & _ & _ & ->). simpl.
    split; [by left|]. by intros [?|?%elem_of_nil].
  - rewrite resume_step, add_held. done.
  - apply add_held.
  - unfold elapse. simpl.
    change (held (setNow (now w + Z.of_N ms)
                    (runTimers (now w + Z.of_N ms) (timers w) w)) x)
      with (held (runTimers (now w + Z.of_N ms) (timers w) w) x).
    rewrite runTimers_held. split; [by left|]. by intros [?|?%elem_of_nil].
Qed.

Lemma run_held cfg events w x :
  held (run cfg events w) x <-> held w x \/ x ∈ added events.
Proof.
  revert w. induction events as [|e events IH]; intros w.
  - simpl. split; [by left|]. by intros [?|?%elem_of_nil].
  - rewrite run_cons, IH, step_held. unfold added. simpl.
    rewrite elem_of_app. fold (added events). tauto.
Qed.

(** X12. Over the whole life of the process, the tags that were handed
    to [add] are exactly the tags that are pending or were handed to a
    sweep: none is dropped on the way, and no sweep is given a tag that
    nobody asked to purge. *)
Theorem every_tag_accounted_for cfg events x :
  x ∈ added events <-> held (run cfg events boot) x.
Proof.
  rewrite run_held. unfold held at 1. simpl. split; [by right|].
  intros [[?%elem_of_nil|(d & ?%elem_of_nil & _)]|?]; done.
Qed.

(** ** Healthy operation *)

Lemma healthy_step cfg w e :
  carriesContext e ->
  healthy w -> healthy (step cfg w e).
Proof.
  intros He (Hw & Hidle & Hctx & Hruns).
  pose proof (wellArmed_step cfg w e Hw) as Hw'.
  split; [done|]. destruct e as [event|event|resumed|newTags|ms]; cbn [step] in *;
    [|done|done|done|].
  - destruct (handler_cases cfg event w) as [(e & -> & _)|(l & -> & _)]; cbn [fst]; [done|].
    destruct (establish_frame cfg event w) as (_ & Hto & Hq & _ & _ & Hr).
    destruct (add_frame l (establish cfg event w)) as (Hc' & _ & _ & Hr').
    assert (cacheContext (invalidator (establish cfg event w)) <> None) as Hset.
    { unfold establish. destruct (cacheContext (invalidator w)) eqn:Hc; [by rewrite Hc|done]. }
    rewrite Hr', Hr, Hc'. split; [|by split].
    destruct (timeout (invalidator w)) as [h|] eqn:Hh.
    + destruct (add_armed l _ h Hto) as (_ & -> & _).
      rewrite Hq. intros Hnil. by apply Hidle in Hnil.
    + destruct (add_idle l _ Hto) as (_ & ->).
      by rewrite Hq, (wellArmed_idle w Hw Hh).
  - apply wellArmed_cases in Hw as [Hq|(t & Hq & Hto & Hnow)].
    + unfold elapse. rewrite Hq, runTimers_nil. simpl. rewrite Hq in Hidle. by split.
    + unfold elapse. rewrite Hq.
      destruct (Z.le_gt_cases (due t) (now w + Z.of_N ms)) as [Hdue|Hearly].
      * rewrite runTimers_due, runTimers_nil by done. simpl.
        destruct (cacheContext (invalidator w)) as [ctx|] eqn:Hc;
          [|by destruct Hctx; rewrite ?Hq].
        rewrite fire_invalidator, fire_runs, (invalidate_set _ _ Hc). simpl.
        split; [done|]. split; [done|].
        apply Forall_app. split; [done|]. by repeat constructor.
      * rewrite runTimers_early by done. simpl. rewrite Hq in Hidle, Hctx. by split.
Qed.

(** X13. As long as every request finds the multi-cache context on its
    event, the invalidator cannot get into the state in which the handle
    is set but no timer is armed, and every expiry drains the buffer and
    sweeps. *)
Theorem context_on_every_request_keeps_sweeping cfg events :
  Forall carriesContext events ->
  (timers (run cfg events boot) = [] -> timeout (invalidator (run cfg events boot)) = None) /\
  (timers (run cfg events boot) <> [] ->
   cacheContext (invalidator (run cfg events boot)) <> None) /\
  Forall (fun r => is_Some (drained r)) (runs (run cfg events boot)).
Proof.
  intros Hevents.
  assert (healthy boot) as Hboot.
  { split; [done|]. split; [done|]. split; [done|]. constructor. }
  revert Hboot. generalize boot as w.
  induction Hevents as [|e events He _ IH]; intros w Hw.
  - apply Hw.
  - rewrite run_cons. apply IH. by apply healthy_step.
Qed.

(** Two windows, each closed by its sweep. *)
Lemma context_on_every_request_keeps_sweeping_witness :
  let events := [EvRequest (purgeRequest ["t1"] (Some dataContext)); EvElapse 2000;
                 EvRequest (purgeRequest ["t3"] (Some dataContext)); EvElapse 2000] in
  Forall carriesContext events /\
  (timers (run settings events boot) = [] ->
   timeout (invalidator (run settings events boot)) = None) /\
  (timers (run settings events boot) <> [] ->
   cacheContext (invalidator (run settings events boot)) <> None) /\
  Forall (fun r => is_Some (drained r)) (runs (run settings events boot)).
Proof.
  intros events.
  assert (Forall carriesContext events) as Hevents.
  { repeat constructor; discriminate. }
  split; [exact Hevents|].
  exact (context_on_every_request_keeps_sweeping settings events Hevents).
Defined.

(** ** Expiries and calls *)

Lemma enqueue_length t queue : length (enqueue t queue) = S (length queue).
Proof.
  induction queue as [|u queue IH]; [done|]. simpl.
  destruct (due u <=? due t); simpl; by rewrite ?IH.
Qed.

Lemma runTimers_balance deadline queue w :
  (length (runs (runTimers deadline queue w)) + length (timers (runTimers deadline queue w))
   = length (runs w) + length queue)%nat.
Proof.
  revert w. induction queue as [|t queue IH]; intros w; [done|].
  simpl. destruct (due t <=? deadline); [|done].
  rewrite IH, fire_runs, length_app. simpl. lia.
Qed.

Lemma add_balance newTags w :
  (length (runs (add newTags w)) + length (timers (add newTags w))
   <= length (runs w) + length (timers w) + 1)%nat.
Proof.
  destruct (add_frame newTags w) as (_ & _ & _ & ->).
  destruct (timeout (invalidator w)) as [h|] eqn:Hto.
  - destruct (add_armed newTags w h Hto) as (_ & -> & _). lia.
  - destruct (add_idle newTags w Hto) as (_ & ->). rewrite enqueue_length. lia.
Qed.

Lemma step_balance cfg w e :
  (length (runs (step cfg w e)) + length (timers (step cfg w e))
   <= length (runs w) + length (timers w) + if callsAdd e then 1 else 0)%nat.
Proof.
  destruct e as [event|event|resumed|newTags|ms]; cbn [step].
  - rewrite handler_unfold. unfold callsAdd.
    destruct (authFailure event); simpl; [lia|].
    destruct (getTagsToPurge event) as [e|l]; simpl; [lia|].
    pose proof (add_balance l (establish cfg event w)) as Hadd.
    destruct (establish_frame cfg event w) as (_ & _ & Hq & _ & _ & Hr).
    rewrite Hq, Hr in Hadd. lia.
  - destruct (suspend_frame event w) as (_ & _ & -> & _ & _ & ->). simpl. lia.
  - rewrite resume_step. simpl callsAdd.
    apply (add_balance resumed (setDelay (orElse (cacheTagInvalidationDelay cfg)
             (DEFAULT_CACHE_TAG_INVALIDATION_DELAY cfg)) w)).
  - simpl. apply add_balance.
  - unfold elapse. simpl.
    pose proof (runTimers_balance (now w + Z.of_N ms) (timers w) w). lia.
Qed.

(** X14. Expiries never outnumber the calls of [add]: in every reachable
    state, the calls of [invalidate] so far and the timers still armed
    are together at most as many as the events that reached [add]. *)
Theorem expiries_bounded_by_adds cfg events :
  (length (runs (run cfg events boot)) + length (timers (run cfg events boot))
   <= length (List.filter callsAdd events))%nat.
Proof.
  assert (forall w,
    (length (runs (run cfg events w)) + length (timers (run cfg events w))
     <= length (runs w) + length (timers w) + length (List.filter callsAdd events))%nat)
    as Hgen.
  { induction events as [|e events IH]; intros w; [simpl; lia|].
    rewrite run_cons. pose proof (IH (step cfg w e)) as Hrest.
    pose proof (step_balance cfg w e) as Hstep. simpl.
    destruct (callsAdd e); simpl; lia. }
  apply (Hgen boot).
Qed.
